(** * goaux/signals: waiting for OS signals and cancel-on-signal scopes

    A shallow embedding of the Go package [signals] (files [wait.go],
    [notify.go] and the later revision of [NotifyContext] with [FromContext]
    and [Canceled]), together with the fragment of the Go standard library it
    runs on ([errors], [context], [os/signal], channels and [select]).

    Layout:
    - [GoErrors]   error values, [Unwrap] chains, [errors.Is], [errors.As];
    - [GoContext]  the [context.Context] interface as a record of methods,
                   [cancelCtx], [context.Cause];
    - [Signals]    the package itself: [Canceled], [signalCtx], [FromContext];
    - [OsSignal]   [signal.Notify] / [signal.Stop] / delivery on one channel;
    - [WaitM]      [Wait] as a schedule-driven machine;
    - [NotifyM]    [NotifyContext] as a schedule-driven machine. *)

From stdpp Require Import base decidable option list strings gmap.
From Stdlib Require Import DecimalString.

Set Warnings "-clear-no-such-hyp".

Open Scope string_scope.
Open Scope list_scope.
Open Scope nat_scope.

(** ** Signals *)

(** [syscall.Signal] is an integer; [os.Signal] is an interface, so a value
    of that type may be [nil]: it is an [option Signal] below. *)
Abbreviation Signal := nat (only parsing).

Definition SIGHUP : Signal := 1.
Definition SIGINT : Signal := 2.
Definition SIGQUIT : Signal := 3.
Definition SIGKILL : Signal := 9.
Definition SIGTERM : Signal := 15.

(** Number of signals known to [os/signal] on linux. *)
Definition numSig : nat := 65.

(** [syscall.Signal.String]: the name from the table, or ["signal N"]. *)
Definition Signal_String (s : Signal) : string :=
  match s with
  | 1 => "hangup"
  | 2 => "interrupt"
  | 3 => "quit"
  | 4 => "illegal instruction"
  | 5 => "trace/breakpoint trap"
  | 6 => "aborted"
  | 7 => "bus error"
  | 8 => "floating point exception"
  | 9 => "killed"
  | 10 => "user defined signal 1"
  | 11 => "segmentation fault"
  | 12 => "user defined signal 2"
  | 13 => "broken pipe"
  | 14 => "alarm clock"
  | 15 => "terminated"
  | _ => ("signal " ++ NilEmpty.string_of_uint (Nat.to_uint s))%string
  end.

(** A call either returns a value or panics. *)
Inductive result (A : Type) : Type :=
| Ok (a : A)
| Panic.
Arguments Ok {A} a.
Arguments Panic {A}.

(** ** Errors *)

Module GoErrors.

(** [signals.Canceled]: the struct with its single unexported field. *)
Record Canceled : Type := mkCanceled { signal : option Signal }.

(** The error values that occur: the two sentinels of package [context],
    the package's own [Canceled], and what callers build with
    [errors.New] and [fmt.Errorf("...%w", err)]. *)
Inductive error : Type :=
| context_Canceled
| context_DeadlineExceeded
| errCanceled (c : Canceled)
| errorString (msg : string)
| wrapError (msg : string) (err : error).

#[global] Instance Canceled_eq_dec : EqDecision Canceled.
Proof. solve_decision. Defined.

#[global] Instance error_eq_dec : EqDecision error.
Proof. solve_decision. Defined.

(** [func (s Canceled) Unwrap() error { return context.Canceled }] *)
Definition Canceled_Unwrap (s : Canceled) : error := context_Canceled.

(** [func (s Canceled) Signal() os.Signal { return s.signal }] *)
Definition Canceled_Signal (s : Canceled) : option Signal := signal s.

(** [func (s Canceled) Error() string]:
    [fmt.Sprintf("%v (%s)", context.Canceled, s.signal.String())].
    Calling [String] on a nil [os.Signal] panics. *)
Definition Canceled_Error (s : Canceled) : result string :=
  match signal s with
  | Some sig => Ok ("context canceled (" ++ Signal_String sig ++ ")")%string
  | None => Panic
  end.

(** [errors.Unwrap]: one step along the chain. *)
Definition Unwrap (e : error) : option error :=
  match e with
  | errCanceled c => Some (Canceled_Unwrap c)
  | wrapError _ inner => Some inner
  | _ => None
  end.

(** The chain that [errors.Is] and [errors.As] walk: [e], [Unwrap e], ... *)
Fixpoint chain (e : error) : list error :=
  e :: match e with
       | wrapError _ inner => chain inner
       | errCanceled c => [Canceled_Unwrap c]
       | _ => []
       end.

(** [errors.Is(err, target)]: with a nil on either side the test is
    [err == target]; otherwise some error of the chain equals [target]. *)
Definition errors_Is (err target : option error) : bool :=
  match err, target with
  | Some e, Some t => bool_decide (t ∈ chain e)
  | None, None => true
  | _, _ => false
  end.

(** What [errors.As] is given as its target. *)
Inductive as_target : Type :=
| target_nil            (* a nil target or a nil pointer *)
| target_not_error      (* not a pointer, or to a non-error, non-interface type *)
| target_ptr_Canceled.  (* [&err] with [var err Canceled] *)

(** First error of the chain that is a [Canceled]. *)
Fixpoint as_Canceled (l : list error) : option Canceled :=
  match l with
  | [] => None
  | errCanceled c :: _ => Some c
  | _ :: l' => as_Canceled l'
  end.

(** [errors.As(err, target)]: false on a nil error, a panic on a target
    that is no non-nil pointer to an error type, else the first error of the
    chain assignable to the target ([Some c] stands for "true, and the
    target now holds [c]"). *)
Definition errors_As (err : option error) (target : as_target)
  : result (option Canceled) :=
  match err with
  | None => Ok None
  | Some e =>
      match target with
      | target_nil | target_not_error => Panic
      | target_ptr_Canceled => Ok (as_Canceled (chain e))
      end
  end.

End GoErrors.
Export GoErrors.

(** ** Contexts *)

Module GoContext.

(** Keys of [Value]: the private [&cancelCtxKey] of package [context], and
    the keys of callers. *)
Inductive key : Type :=
| cancelCtxKey
| userKey (k : nat).

#[global] Instance key_eq_dec : EqDecision key.
Proof. solve_decision. Defined.

(** What [Value] returns: nil, a caller's value, or (for [&cancelCtxKey])
    the nearest enclosing [*cancelCtx], seen through its [err] and [cause]
    fields. *)
Inductive any : Type :=
| any_nil
| any_val (v : nat)
| any_cancelCtx (err cause : option error).

(** The [context.Context] interface, observed at one instant: its four
    methods ([Done] is whether the done channel is closed), and what the
    dynamic type adds: its name ([reflectlite.TypeOf(c).String()]) and its
    [String] method when it is a [fmt.Stringer] ([None] when it is not). *)
Record Context : Type := mkContext {
  Deadline : option nat;
  Done : bool;
  Err : option error;
  Value : key → any;
  TypeOf : string;
  String : option (result string)
}.

(** [context.Background()]. *)
Definition Background : Context :=
  {| Deadline := None; Done := false; Err := None;
     Value := λ _, any_nil;
     TypeOf := "context.backgroundCtx";
     String := Some (Ok "context.Background") |}.

(** [contextName]: [String()] of a Stringer, else the type's name. *)
Definition contextName (c : Context) : result string :=
  match String c with
  | Some r => r
  | None => Ok (TypeOf c)
  end.

(** The struct [cancelCtx]: the embedded parent and the two fields written
    by [cancel]. *)
Record cancelCtx : Type := mkCancelCtx {
  cancelCtx_Context : Context;
  err : option error;
  cause : option error
}.

(** The method [cancel(_, err, cause)] of [cancelCtx]: a nil cause becomes
    [err]; a context that is already canceled is left as it is. *)
Definition cancelCtx_cancel (e : error) (cs : option error) (c : cancelCtx)
  : cancelCtx :=
  let cs' := default e cs in
  match err c with
  | Some _ => c
  | None => {| cancelCtx_Context := cancelCtx_Context c;
               err := Some e; cause := Some cs' |}
  end.

(** [func (c *cancelCtx) String() string]:
    [contextName(c.Context) + ".WithCancel"]. *)
Definition cancelCtx_String (c : cancelCtx) : result string :=
  match contextName (cancelCtx_Context c) with
  | Ok n => Ok (n ++ ".WithCancel")%string
  | Panic => Panic
  end.

(** The methods of a pointer to [cancelCtx], as a [Context]: [Deadline] is
    promoted from the embedded parent, [Value] answers [&cancelCtxKey] with
    the receiver and hands other keys to the parent. *)
Definition cancelCtx_iface (c : cancelCtx) : Context :=
  {| Deadline := Deadline (cancelCtx_Context c);
     Done := bool_decide (is_Some (err c));
     Err := err c;
     Value := λ k, match k with
                   | cancelCtxKey => any_cancelCtx (err c) (cause c)
                   | _ => Value (cancelCtx_Context c) k
                   end;
     TypeOf := "*context.cancelCtx";
     String := Some (cancelCtx_String c) |}.

(** [context.Cause(c)]: the cause of the nearest [cancelCtx] if it has one,
    else [c.Err()]. *)
Definition Cause (c : Context) : option error :=
  match Value c cancelCtxKey with
  | any_cancelCtx _ (Some cs) => Some cs
  | _ => Err c
  end.

(** [propagateCancel], the part that does not wait: a parent whose done
    channel is already closed cancels the child at once with the parent's
    error and cause. (A closed [Done] comes with a non-nil [Err]; on a
    parent that breaks this, [cancel] is not reached here.) *)
Definition propagate_now (parent : Context) (c : cancelCtx) : cancelCtx :=
  if Done parent then
    match Err parent with
    | Some e => cancelCtx_cancel e (Cause parent) c
    | None => c
    end
  else c.

(** [context.WithCancelCause(parent)]: the new [cancelCtx], linked to its
    parent. The returned cancel function is
    [λ cause, cancelCtx_cancel context_Canceled cause]. *)
Definition WithCancelCause (parent : Context) : cancelCtx :=
  propagate_now parent
    {| cancelCtx_Context := parent; err := None; cause := None |}.

(** The [CancelCauseFunc] returned by [WithCancelCause]:
    [func(cause error) { c.cancel(true, Canceled, cause) }]. *)
Definition CancelCauseFunc (cs : option error) (c : cancelCtx) : cancelCtx :=
  cancelCtx_cancel context_Canceled cs c.

End GoContext.
Export GoContext.

(** ** The package: [Canceled], [signalCtx], [FromContext] *)

Module Signals.

(** [type signalCtx struct { context.Context; signals []os.Signal }] *)
Record signalCtx : Type := mkSignalCtx {
  signalCtx_Context : Context;
  signals : list Signal
}.

(** Go's [name[:len(name)-n]]: a panic when [n] exceeds the length. *)
Definition drop_suffix_len (n : nat) (name : string) : result string :=
  if decide (n ≤ String.length name)%nat
  then Ok (String.substring 0 (String.length name - n) name)
  else Panic.

(** The loop of [String]: the names separated by single spaces. *)
Fixpoint join_signals (l : list Signal) : string :=
  match l with
  | [] => ""
  | [s] => Signal_String s
  | s :: l' => (Signal_String s ++ " " ++ join_signals l')%string
  end.

(** [func (c *signalCtx) String() string]. The type assertion
    [c.Context.(stringer)] panics on a context that is no Stringer. *)
Definition signalCtx_String (c : signalCtx) : result string :=
  match String (signalCtx_Context c) with
  | None | Some Panic => Panic
  | Some (Ok name) =>
      match drop_suffix_len (String.length ".WithCancel") name with
      | Panic => Panic
      | Ok name =>
          Ok ("signals.NotifyContext(" ++ name
              ++ (match signals c with
                  | [] => ""
                  | _ => ", [" ++ join_signals (signals c) ++ "]"
                  end)
              ++ ")")%string
      end
  end.

(** The methods of a pointer to [signalCtx], as a [Context]: the four
    interface methods are promoted from the embedded [Context]; only
    [String] is the type's own. *)
Definition signalCtx_iface (c : signalCtx) : Context :=
  {| Deadline := Deadline (signalCtx_Context c);
     Done := Done (signalCtx_Context c);
     Err := Err (signalCtx_Context c);
     Value := Value (signalCtx_Context c);
     TypeOf := "*signals.signalCtx";
     String := Some (signalCtx_String c) |}.

(** [func FromContext(ctx context.Context) (signal os.Signal, ok bool)]:
<<
    var err Canceled
    if errors.As(context.Cause(ctx), &err) { return err.Signal(), true }
    return
>> *)
Definition FromContext (ctx : Context) : result (option Signal * bool) :=
  match errors_As (Cause ctx) target_ptr_Canceled with
  | Panic => Panic
  | Ok (Some err) => Ok (Canceled_Signal err, true)
  | Ok None => Ok (None, false)
  end.

End Signals.
Export Signals.

(** ** Package [os/signal] and channels, seen from one channel

    [os/signal] keeps a process-wide table from channels to handlers; a
    handler is the set of signal numbers its channel wants. [Wait] and
    [NotifyContext] each make a channel of their own that never leaves the
    call, so what they see of the table is the entry of that channel: [None]
    when the channel is not registered. *)

Module OsSignal.

(** [make(chan os.Signal, cap)]. *)
Record chan : Type := mkChan { cap : nat; buf : list Signal }.

Definition make_chan (n : nat) : chan := {| cap := n; buf := [] |}.

(** [signum]: the index of a signal in the table, if it has one. *)
Definition signum (s : Signal) : option nat :=
  if decide (s < numSig) then Some s else None.

Definition all_signals : gset nat := list_to_set (seq 0 numSig).

(** [signal.Notify(c, sigs...)] on the entry of [c]: no signals given means
    all of them, otherwise the ones listed (those that have an index); the
    entry is created when it is missing and only ever grows. *)
Definition Notify (sigs : list Signal) (h : option (gset nat))
  : option (gset nat) :=
  Some (default ∅ h ∪ match sigs with
                      | [] => all_signals
                      | _ => list_to_set (omap signum sigs)
                      end).

(** [signal.Stop(c)]: the entry of [c] is deleted. *)
Definition Stop (h : option (gset nat)) : option (gset nat) := None.

(** [h.want(n)] for the handler of a registered channel. *)
Definition want (h : option (gset nat)) (s : Signal) : bool :=
  match h with
  | Some mask => bool_decide (s ∈ mask)
  | None => false
  end.

(** The send of [process]: [select { case c <- sig: default: }]. It never
    blocks: the value goes to a receiver parked on the channel, else into
    the buffer if there is room, else it is dropped. *)
Inductive sent : Type :=
| Handoff
| Buffered (c : chan)
| Dropped.

Definition send_nb (receiver_parked : bool) (c : chan) (s : Signal) : sent :=
  if receiver_parked then Handoff
  else if decide (length (buf c) < cap c)
       then Buffered {| cap := cap c; buf := buf c ++ [s] |}
       else Dropped.

(** The signals a channel registered by [Notify(c, sigs...)] alone is
    sent. *)
Definition monitored (sigs : list Signal) : gset nat :=
  default ∅ (Notify sigs None).

(** What has happened so far to the two things a [select] of the package
    races on; a history kept beside the program state, oldest first. *)
Inductive happened : Type :=
| ctx_became_done
| delivered (s : Signal).

#[global] Instance happened_eq_dec : EqDecision happened.
Proof. solve_decision. Defined.

End OsSignal.
Export OsSignal.

(** ** [Wait]

<<
    func Wait(ctx context.Context, signals ...os.Signal) os.Signal {
        ch := make(chan os.Signal, 1)
        signal.Notify(ch, signals...)
        defer signal.Stop(ch)
        select {
        case sig := <-ch:
            return sig
        case <-ctx.Done():
            return nil
        }
    }
>>
    The call runs concurrently with signal delivery and with whoever cancels
    [ctx], so it is a machine driven by a schedule: a list of events, each
    either a step of the call or a step of its environment. *)

Module WaitM.

(** Where the call is. *)
Inductive pc : Type :=
| Entry                         (* [ch] is made; [Notify] is next *)
| Select                        (* subscribed; the [select] is next *)
| Parked                        (* blocked in the [select] *)
| Woken (r : option Signal)     (* a case was chosen; the [return] is next *)
| Returned (r : option Signal). (* the deferred call has run *)

Inductive deferred : Type :=
| defer_Stop.                   (* [defer signal.Stop(ch)] *)

Record state : Type := mkState {
  signals : list Signal;        (* the argument *)
  ctx_done : bool;              (* [ctx.Done()] is closed *)
  handler : option (gset nat);  (* the entry of [ch] in [os/signal] *)
  ch : chan;
  defers : list deferred;
  at_pc : pc;
  history : list happened       (* not program state *)
}.

Inductive event : Type :=
| EvNotify              (* the call: [signal.Notify]; [defer signal.Stop] *)
| EvSelectRecv          (* the call: [select] takes [case sig := <-ch] *)
| EvSelectDone          (* the call: [select] takes [case <-ctx.Done()] *)
| EvPark                (* the call: no case is ready, [select] blocks *)
| EvReturn              (* the call: deferred calls, then return *)
| EvRaise (s : Signal)  (* environment: a signal reaches the process *)
| EvCtxDone.            (* environment: [ctx] becomes done *)

(** The state in which [Wait(ctx, signals...)] starts; [done0] tells
    whether [ctx] is already done. *)
Definition init (done0 : bool) (sigs : list Signal) : state :=
  {| signals := sigs; ctx_done := done0; handler := None;
     ch := make_chan 1; defers := []; at_pc := Entry;
     history := if done0 then [ctx_became_done] else [] |}.

Definition run_deferred (d : deferred) (st : state) : state :=
  match d with
  | defer_Stop =>
      {| signals := signals st; ctx_done := ctx_done st;
         handler := Stop (handler st); ch := ch st;
         defers := defers st; at_pc := at_pc st; history := history st |}
  end.

Definition set_pc (p : pc) (st : state) : state :=
  {| signals := signals st; ctx_done := ctx_done st; handler := handler st;
     ch := ch st; defers := defers st; at_pc := p; history := history st |}.

Definition is_parked (st : state) : bool :=
  match at_pc st with Parked => true | _ => false end.

(** [process(sig)], restricted to [ch]. *)
Definition raise (s : Signal) (st : state) : state :=
  if want (handler st) s then
    match send_nb (is_parked st) (ch st) s with
    | Handoff =>
        {| signals := signals st; ctx_done := ctx_done st;
           handler := handler st; ch := ch st; defers := defers st;
           at_pc := Woken (Some s);
           history := history st ++ [delivered s] |}
    | Buffered c =>
        {| signals := signals st; ctx_done := ctx_done st;
           handler := handler st; ch := c; defers := defers st;
           at_pc := at_pc st;
           history := history st ++ [delivered s] |}
    | Dropped => st
    end
  else st.

(** One event; [None] when the event cannot happen in this state. *)
Definition step (st : state) (e : event) : option state :=
  match e with
  | EvNotify =>
      match at_pc st with
      | Entry =>
          Some {| signals := signals st; ctx_done := ctx_done st;
                  handler := Notify (signals st) (handler st);
                  ch := ch st; defers := defer_Stop :: defers st;
                  at_pc := Select; history := history st |}
      | _ => None
      end
  | EvSelectRecv =>
      match at_pc st, buf (ch st) with
      | Select, s :: rest =>
          Some {| signals := signals st; ctx_done := ctx_done st;
                  handler := handler st;
                  ch := {| cap := cap (ch st); buf := rest |};
                  defers := defers st;
                  at_pc := Woken (Some s); history := history st |}
      | _, _ => None
      end
  | EvSelectDone =>
      match at_pc st, ctx_done st with
      | Select, true => Some (set_pc (Woken None) st)
      | _, _ => None
      end
  | EvPark =>
      match at_pc st, buf (ch st), ctx_done st with
      | Select, [], false => Some (set_pc Parked st)
      | _, _, _ => None
      end
  | EvReturn =>
      match at_pc st with
      | Woken r =>
          let st' := foldl (λ s d, run_deferred d s) st (defers st) in
          Some {| signals := signals st'; ctx_done := ctx_done st';
                  handler := handler st'; ch := ch st'; defers := [];
                  at_pc := Returned r; history := history st' |}
      | _ => None
      end
  | EvRaise s => Some (raise s st)
  | EvCtxDone =>
      if ctx_done st then None
      else Some {| signals := signals st; ctx_done := true;
                   handler := handler st; ch := ch st; defers := defers st;
                   at_pc := if is_parked st then Woken None else at_pc st;
                   history := history st ++ [ctx_became_done] |}
  end.

(** A whole schedule. *)
Fixpoint exec (st : state) (tr : list event) : option state :=
  match tr with
  | [] => Some st
  | e :: tr' =>
      match step st e with
      | Some st' => exec st' tr'
      | None => None
      end
  end.

(** [Wait(ctx, sigs...)] under schedule [tr]: the value returned, if the
    schedule is one the call can follow and lets it return. *)
Definition Wait (done0 : bool) (sigs : list Signal) (tr : list event)
  : option (option Signal) :=
  match exec (init done0 sigs) tr with
  | Some st =>
      match at_pc st with
      | Returned r => Some r
      | _ => None
      end
  | None => None
  end.

(** Events of the environment, as opposed to steps of the call. *)
Definition env_event (e : event) : bool :=
  match e with
  | EvRaise _ | EvCtxDone => true
  | _ => false
  end.

(** "[ctx] became done before any signal was delivered to the queue." *)
Definition done_first (st : state) : Prop :=
  head (history st) = Some ctx_became_done.

End WaitM.

(** ** [NotifyContext]

    The later revision (with [FromContext] and [Canceled]):
<<
    func NotifyContext(parent context.Context,
        run func(context.Context) error, signals ...os.Signal) error {
        ctx, cancel := context.WithCancelCause(parent)
        defer cancel(nil)
        c := &signalCtx{Context: ctx, signals: signals}
        ch := make(chan os.Signal, 1)
        signal.Notify(ch, signals...)
        defer signal.Stop(ch)
        if ctx.Err() == nil {
            go func() {
                select {
                case sig := <-ch:
                    cancel(Canceled{signal: sig})
                case <-ctx.Done():
                }
            }()
        }
        return run(c)
    }
>>
    The earlier revision ([notify.go]) leaves the set-up to the standard
    library:
<<
        ctx, cancel := signal.NotifyContext(ctx, signals...)
        defer cancel()
        return run(ctx)
>>
    where [signal.NotifyContext] derives the child with [WithCancel], makes
    and registers the channel, starts the same listener with a plain
    [cancel()] in place of [cancel(Canceled{...})], and returns as [cancel] a
    function that cancels the child and then calls [signal.Stop].

    [run] is the caller's code: it runs concurrently with the listener, with
    signal delivery and with whoever cancels [parent]; all it does to the
    call is to end, by a return or a panic. *)

Module NotifyM.

Inductive revision : Type :=
| notify_go      (* [notify.go], on [signal.NotifyContext] *)
| with_cause.    (* the revision with [WithCancelCause] and [Canceled] *)

(** How [run], and with it [NotifyContext], ends. *)
Inductive outcome : Type :=
| Returns (e : option error)
| Panics.

(** Where the calling goroutine is. *)
Inductive main_pc : Type :=
| Entry                  (* deriving the child context is next *)
| Created                (* [signal.Notify] is next *)
| Subscribed             (* the test [ctx.Err() == nil] is next *)
| Running                (* inside [run(c)] *)
| Exiting (o : outcome)  (* [run] is over, deferred calls are running *)
| Exited (o : outcome).  (* [NotifyContext] is over *)

(** Where the listener goroutine is. *)
Inductive listener_pc : Type :=
| NotStarted
| LSelect                (* the [select] is next *)
| LParked                (* blocked in the [select] *)
| LWoken (s : Signal)    (* took [sig] from [ch]; the cancel is next *)
| LExited.

Inductive deferred : Type :=
| defer_cancel_nil       (* [defer cancel(nil)] *)
| defer_Stop             (* [defer signal.Stop(ch)] *)
| defer_stop.            (* [defer cancel()] of [notify.go]: cancel, Stop *)

Record state : Type := mkState {
  rev : revision;
  signals : list Signal;        (* the argument *)
  ctx : cancelCtx;              (* the child; its embedded context is [parent] *)
  handler : option (gset nat);  (* the entry of [ch] in [os/signal] *)
  ch : chan;
  defers : list deferred;       (* most recent first *)
  main : main_pc;
  listener : listener_pc;
  history : list happened       (* not program state *)
}.

Definition parent (st : state) : Context := cancelCtx_Context (ctx st).

Inductive event : Type :=
| EvMain                       (* the call: its next statement *)
| EvRunExit (o : outcome)      (* [run] returns or panics *)
| EvDefer                      (* the call: next deferred call, or the exit *)
| EvListenerRecv               (* listener: [select] takes [case sig := <-ch] *)
| EvListenerDone               (* listener: [select] takes [case <-ctx.Done()] *)
| EvListenerPark               (* listener: no case is ready, [select] blocks *)
| EvListenerCancel             (* listener: the cancel after a receive *)
| EvRaise (s : Signal)         (* environment: a signal reaches the process *)
| EvParentDone (p : Context)   (* environment: [parent] becomes done, now seen as [p] *)
| EvPropagate.                 (* [context]: the done parent cancels the child *)

Definition init (r : revision) (parent0 : Context) (sigs : list Signal)
  : state :=
  {| rev := r; signals := sigs;
     ctx := {| cancelCtx_Context := parent0; err := None; cause := None |};
     handler := None; ch := make_chan 1; defers := []; main := Entry;
     listener := NotStarted; history := [] |}.

(** The cause the listener cancels with. *)
Definition listener_cause (r : revision) (sig : Signal) : option error :=
  match r with
  | with_cause => Some (errCanceled {| signal := Some sig |})
  | notify_go => None
  end.

(** A listener parked in its [select] is woken when the child [c] is done;
    it takes the empty [case <-ctx.Done()] and ends. *)
Definition wake (c : cancelCtx) (l : listener_pc) : listener_pc :=
  match l with
  | LParked => if Done (cancelCtx_iface c) then LExited else LParked
  | l => l
  end.

(** The child is replaced by [c]. *)
Definition set_ctx (c : cancelCtx) (st : state) : state :=
  {| rev := rev st; signals := signals st; ctx := c;
     handler := handler st; ch := ch st; defers := defers st;
     main := main st; listener := wake c (listener st);
     history := history st |}.

Definition set_handler (h : option (gset nat)) (st : state) : state :=
  {| rev := rev st; signals := signals st; ctx := ctx st;
     handler := h; ch := ch st; defers := defers st;
     main := main st; listener := listener st; history := history st |}.

Definition set_defers (ds : list deferred) (st : state) : state :=
  {| rev := rev st; signals := signals st; ctx := ctx st;
     handler := handler st; ch := ch st; defers := ds;
     main := main st; listener := listener st; history := history st |}.

Definition set_main (m : main_pc) (st : state) : state :=
  {| rev := rev st; signals := signals st; ctx := ctx st;
     handler := handler st; ch := ch st; defers := defers st;
     main := m; listener := listener st; history := history st |}.

Definition set_listener (l : listener_pc) (st : state) : state :=
  {| rev := rev st; signals := signals st; ctx := ctx st;
     handler := handler st; ch := ch st; defers := defers st;
     main := main st; listener := l; history := history st |}.

Definition set_ch (c : chan) (st : state) : state :=
  {| rev := rev st; signals := signals st; ctx := ctx st;
     handler := handler st; ch := c; defers := defers st;
     main := main st; listener := listener st; history := history st |}.

Definition log (h : happened) (st : state) : state :=
  {| rev := rev st; signals := signals st; ctx := ctx st;
     handler := handler st; ch := ch st; defers := defers st;
     main := main st; listener := listener st;
     history := history st ++ [h] |}.

Definition push_defer (d : deferred) (st : state) : state :=
  set_defers (d :: defers st) st.

(** The statements of the calling goroutine before [run]. *)
Definition main_step (st : state) : option state :=
  match main st with
  | Entry =>
      let st := set_ctx (WithCancelCause (parent st)) st in
      let st := match rev st with
                | with_cause => push_defer defer_cancel_nil st
                | notify_go => st
                end in
      Some (set_main Created st)
  | Created =>
      let st := set_handler (Notify (signals st) (handler st)) st in
      let st := match rev st with
                | with_cause => push_defer defer_Stop st
                | notify_go => st
                end in
      Some (set_main Subscribed st)
  | Subscribed =>
      let st := match Err (cancelCtx_iface (ctx st)) with
                | None => set_listener LSelect st
                | Some _ => st
                end in
      let st := match rev st with
                | with_cause => st
                | notify_go => push_defer defer_stop st
                end in
      Some (set_main Running st)
  | _ => None
  end.

Definition run_deferred (d : deferred) (st : state) : state :=
  match d with
  | defer_cancel_nil => set_ctx (CancelCauseFunc None (ctx st)) st
  | defer_Stop => set_handler (Stop (handler st)) st
  | defer_stop =>
      let st := set_ctx (CancelCauseFunc None (ctx st)) st in
      set_handler (Stop (handler st)) st
  end.

Definition is_parked (st : state) : bool :=
  match listener st with LParked => true | _ => false end.

(** [process(sig)], restricted to [ch]. *)
Definition raise (s : Signal) (st : state) : state :=
  if want (handler st) s then
    match send_nb (is_parked st) (ch st) s with
    | Handoff => log (delivered s) (set_listener (LWoken s) st)
    | Buffered c => log (delivered s) (set_ch c st)
    | Dropped => st
    end
  else st.

(** One event; [None] when the event cannot happen in this state. *)
Definition step (st : state) (e : event) : option state :=
  match e with
  | EvMain => main_step st
  | EvRunExit o =>
      match main st with
      | Running => Some (set_main (Exiting o) st)
      | _ => None
      end
  | EvDefer =>
      match main st, defers st with
      | Exiting o, d :: ds => Some (run_deferred d (set_defers ds st))
      | Exiting o, [] => Some (set_main (Exited o) st)
      | _, _ => None
      end
  | EvListenerRecv =>
      match listener st, buf (ch st) with
      | LSelect, s :: rest =>
          Some (set_listener (LWoken s)
                  (set_ch {| cap := cap (ch st); buf := rest |} st))
      | _, _ => None
      end
  | EvListenerDone =>
      match listener st, Done (cancelCtx_iface (ctx st)) with
      | LSelect, true => Some (set_listener LExited st)
      | _, _ => None
      end
  | EvListenerPark =>
      match listener st, buf (ch st), Done (cancelCtx_iface (ctx st)) with
      | LSelect, [], false => Some (set_listener LParked st)
      | _, _, _ => None
      end
  | EvListenerCancel =>
      match listener st with
      | LWoken s =>
          Some (set_listener LExited
                  (set_ctx (CancelCauseFunc (listener_cause (rev st) s)
                              (ctx st)) st))
      | _ => None
      end
  | EvRaise s => Some (raise s st)
  | EvParentDone p =>
      if Done (parent st) then None
      else if Done p && bool_decide (is_Some (Err p))
           then Some (set_ctx {| cancelCtx_Context := p;
                                 err := err (ctx st);
                                 cause := cause (ctx st) |} st)
           else None
  | EvPropagate =>
      match main st with
      | Entry => None
      | _ => Some (set_ctx (propagate_now (parent st) (ctx st)) st)
      end
  end.

(** A whole schedule. *)
Fixpoint exec (st : state) (tr : list event) : option state :=
  match tr with
  | [] => Some st
  | e :: tr' =>
      match step st e with
      | Some st' => exec st' tr'
      | None => None
      end
  end.


(** The context [c] that [run] is given, as [run] sees it in state [st]. *)
Definition run_ctx (st : state) : Context :=
  signalCtx_iface {| signalCtx_Context := cancelCtx_iface (ctx st);
                     Signals.signals := signals st |}.

(** Events of the environment and of package [context], as opposed to
    steps of the call and of its listener. *)
Definition env_event (e : event) : bool :=
  match e with
  | EvRaise _ | EvParentDone _ | EvPropagate => true
  | _ => false
  end.



(** A context whose cause, if any, carries no [Canceled]. *)
Definition no_signal_cause (p : Context) : Prop :=
  ∀ e, Cause p = Some e → as_Canceled (chain e) = None.

(** The parents a schedule shows. *)
Definition parents_of (tr : list event) : list Context :=
  omap (λ e, match e with EvParentDone p => Some p | _ => None end) tr.

End NotifyM.

(** * Invariants

    What holds in every state a schedule can reach. *)

Module WaitInv.
Import WaitM.

(** The value a chosen [select] case returns is backed by what happened. *)
Definition result_ok (r : option Signal) (st : state) : Prop :=
  match r with
  | None => ctx_done st = true
  | Some s => delivered s ∈ history st
  end.

Record inv (sigs : list Signal) (st : state) : Prop := mkInv {
  inv_signals : signals st = sigs;
  inv_cap : cap (ch st) = 1;
  inv_len : length (buf (ch st)) ≤ 1;
  inv_done : ctx_done st = true ↔ ctx_became_done ∈ history st;
  inv_buf : ∀ s, s ∈ buf (ch st) → delivered s ∈ history st;
  inv_delivered : ∀ s, delivered s ∈ history st → s ∈ monitored sigs;
  inv_pc :
    match at_pc st with
    | Entry =>
        handler st = None ∧ defers st = [] ∧ buf (ch st) = []
    | Select =>
        handler st = Some (monitored sigs) ∧ defers st = [defer_Stop]
    | Parked =>
        handler st = Some (monitored sigs) ∧ defers st = [defer_Stop]
        ∧ buf (ch st) = [] ∧ ctx_done st = false
    | Woken r =>
        handler st = Some (monitored sigs) ∧ defers st = [defer_Stop]
        ∧ result_ok r st
    | Returned r =>
        handler st = None ∧ defers st = [] ∧ result_ok r st
    end
}.

End WaitInv.

Module NotifyInv.
Import NotifyM.

(** The deferred calls that are still to run, by revision and by place. *)
Definition main_ok (sigs : list Signal) (st : state) : Prop :=
  match main st with
  | Entry =>
      handler st = None ∧ defers st = [] ∧ listener st = NotStarted
      ∧ err (ctx st) = None ∧ cause (ctx st) = None
  | Created =>
      handler st = None ∧ listener st = NotStarted
      ∧ defers st = match rev st with
                    | with_cause => [defer_cancel_nil]
                    | notify_go => []
                    end
  | Subscribed =>
      handler st = Some (monitored sigs) ∧ listener st = NotStarted
      ∧ defers st = match rev st with
                    | with_cause => [defer_Stop; defer_cancel_nil]
                    | notify_go => []
                    end
  | Running =>
      handler st = Some (monitored sigs)
      ∧ defers st = match rev st with
                    | with_cause => [defer_Stop; defer_cancel_nil]
                    | notify_go => [defer_stop]
                    end
  | Exiting _ =>
      match rev st with
      | with_cause =>
          (handler st = Some (monitored sigs)
           ∧ defers st = [defer_Stop; defer_cancel_nil])
          ∨ (handler st = None ∧ defers st = [defer_cancel_nil])
          ∨ (handler st = None ∧ defers st = [] ∧ is_Some (err (ctx st)))
      | notify_go =>
          (handler st = Some (monitored sigs) ∧ defers st = [defer_stop])
          ∨ (handler st = None ∧ defers st = [] ∧ is_Some (err (ctx st)))
      end
  | Exited _ =>
      handler st = None ∧ defers st = [] ∧ is_Some (err (ctx st))
  end.

Definition listener_ok (st : state) : Prop :=
  match listener st with
  | NotStarted | LSelect | LExited => True
  | LParked => err (ctx st) = None ∧ buf (ch st) = []
  | LWoken s => delivered s ∈ history st
  end.

(** Why the child is canceled, read off its two fields: not at all; by a
    plain cancel (the deferred one, or the listener of [notify.go]); by its
    done parent; by the listener, for a signal that was delivered. *)
Definition cause_ok (st : state) : Prop :=
  (err (ctx st) = None ∧ cause (ctx st) = None)
  ∨ (err (ctx st) = Some context_Canceled
     ∧ cause (ctx st) = Some context_Canceled)
  ∨ (Done (parent st) = true ∧ is_Some (Err (parent st))
     ∧ err (ctx st) = Err (parent st)
     ∧ cause (ctx st) = Cause (parent st))
  ∨ (∃ s, rev st = with_cause
          ∧ err (ctx st) = Some context_Canceled
          ∧ cause (ctx st) = Some (errCanceled {| signal := Some s |})
          ∧ delivered s ∈ history st).

Record inv (r : revision) (sigs : list Signal) (st : state) : Prop := mkInv {
  inv_rev : rev st = r;
  inv_signals : signals st = sigs;
  inv_cap : cap (ch st) = 1;
  inv_len : length (buf (ch st)) ≤ 1;
  inv_buf : ∀ s, s ∈ buf (ch st) → delivered s ∈ history st;
  inv_delivered : ∀ s, delivered s ∈ history st → s ∈ monitored sigs;
  inv_main : main_ok sigs st;
  inv_listener : listener_ok st;
  inv_cause : cause_ok st
}.

(** The parent was done before the call began: what then holds for good. *)
Definition parent_first (p0 : Context) (st : state) : Prop :=
  parent st = p0 ∧ listener st = NotStarted
  ∧ (main st ≠ Entry →
     err (ctx st) = Err p0 ∧ cause (ctx st) = Cause p0).

End NotifyInv.

(** The signals of a history that were delivered to the queue, in order. *)
Definition delivered_signals (h : list happened) : list Signal :=
  omap (λ x, match x with delivered s => Some s | ctx_became_done => None end) h.

Module WaitFirst.
Import WaitM.

(** The queue holds the first signal delivered, and a chosen signal is that
    one. *)
Definition first_inv (st : state) : Prop :=
  match at_pc st with
  | Entry | Parked => delivered_signals (history st) = []
  | Select => delivered_signals (history st) = buf (ch st)
  | Woken (Some s) | Returned (Some s) =>
      head (delivered_signals (history st)) = Some s
  | Woken None | Returned None => True
  end.

End WaitFirst.

(** * Properties *)

(** ** Errors, [Canceled] and [FromContext] *)

Module ErrorProps.

(** [chain] is the walk of [errors.Is] and [errors.As]: the error itself,
    then the chain of what it unwraps to. *)
Lemma chain_unfold (e : error) :
  chain e = e :: from_option chain [] (Unwrap e).
Proof. destruct e as [| |c| |m e']; reflexivity. Qed.

Lemma as_Canceled_Some (l : list error) (c : Canceled) :
  as_Canceled l = Some c → errCanceled c ∈ l.
Proof.
  induction l as [|e l IH]; simpl; [done|].
  intros H. apply elem_of_cons.
  destruct e; try (right; by apply IH).
  left. congruence.
Qed.

Lemma as_Canceled_None (l : list error) :
  as_Canceled l = None ↔ ∀ c, errCanceled c ∉ l.
Proof.
  split.
  - intros H c Hc. induction l as [|e l IH]; [inversion Hc|].
    apply elem_of_cons in Hc as [<-|Hc]; [discriminate|].
    destruct e; simpl in H; try discriminate; by apply IH.
  - intros H. destruct (as_Canceled l) as [c|] eqn:E; [|done].
    apply as_Canceled_Some in E. by destruct (H c).
Qed.

(** [FromContext] in terms of the cause. *)
Lemma FromContext_cause (ctx : Context) :
  FromContext ctx =
    Ok (match Cause ctx with
        | Some e => match as_Canceled (chain e) with
                    | Some c => (signal c, true)
                    | None => (None, false)
                    end
        | None => (None, false)
        end).
Proof.
  unfold FromContext, errors_As. destruct (Cause ctx) as [e|]; [|done].
  by destruct (as_Canceled (chain e)).
Qed.

(** C4: for every signal value [sig], [Canceled{sig}.Unwrap()] is
    [context.Canceled] itself, so [errors.Is(cause, context.Canceled)]
    holds of the cause [Canceled{sig}], and [Canceled{sig}.Signal()] is
    [sig]. *)
Theorem Canceled_composes_with_context_Canceled (sig : option Signal) :
  let c := {| signal := sig |} in
  Canceled_Unwrap c = context_Canceled
  ∧ Unwrap (errCanceled c) = Some context_Canceled
  ∧ errors_Is (Some (errCanceled c)) (Some context_Canceled) = true
  ∧ Canceled_Signal c = sig.
Proof.
  cbv zeta. split_and!; reflexivity.
Qed.


End ErrorProps.


(** ** [os/signal] *)

Module OsSignalProps.

Lemma Notify_fresh sigs : Notify sigs None = Some (monitored sigs).
Proof. reflexivity. Qed.

Lemma monitored_all (s : Signal) : s ∈ monitored [] ↔ s < numSig.
Proof.
  unfold monitored, Notify. cbn [default from_option id].
  rewrite elem_of_union. unfold all_signals. rewrite elem_of_list_to_set, elem_of_seq.
  split; [intros [H|H]; [set_solver | lia] | intros H; right; lia].
Qed.

Lemma monitored_listed (sigs : list Signal) (s : Signal) :
  sigs ≠ [] → s ∈ monitored sigs ↔ s ∈ sigs ∧ s < numSig.
Proof.
  intros Hne. unfold monitored, Notify. destruct sigs as [|s0 sigs]; [done|].
  cbn [default from_option id]. rewrite elem_of_union, elem_of_list_to_set, list_elem_of_omap.
  unfold signum. split.
  - intros [H|(x & Hx & Hs)]; [set_solver|].
    case_decide; simplify_eq. done.
  - intros [H1 H2]. right. exists s. split; [done|]. by case_decide.
Qed.

End OsSignalProps.

(** ** [Wait] *)

Module WaitProps.
Import WaitM WaitInv OsSignalProps WaitFirst.

Lemma Wait_init_inv (done0 : bool) (sigs : list Signal) :
  inv sigs (init done0 sigs).
Proof.
  constructor; simpl; try done; try lia.
  - destruct done0; simpl; split; try done.
    + intros _. apply list_elem_of_singleton. done.
    + intros H. inversion H.
  - intros s H. inversion H.
  - intros s H. destruct done0; simpl in H.
    + apply list_elem_of_singleton in H. discriminate.
    + inversion H.
Qed.

Lemma result_ok_log r st st' h :
  ctx_done st' = ctx_done st → history st' = history st ++ [h] →
  result_ok r st → result_ok r st'.
Proof.
  intros Hd Hh. destruct r; simpl; [|congruence].
  rewrite Hh, elem_of_app. auto.
Qed.

Lemma want_monitored sigs st s :
  inv sigs st → want (handler st) s = true → s ∈ monitored sigs ∧ handler st = Some (monitored sigs).
Proof.
  intros [_ _ _ _ _ _ Hp]. unfold want.
  destruct (handler st) as [m|] eqn:Hh; [|done].
  intros Hin%bool_decide_eq_true.
  destruct (at_pc st); destruct_and?; simplify_eq; done.
Qed.

Lemma Wait_raise_inv sigs st s : inv sigs st → inv sigs (raise s st).
Proof.
  intros Hinv. unfold raise.
  destruct (want (handler st) s) eqn:Hw; [|done].
  destruct (want_monitored _ _ _ Hinv Hw) as [Hm Hh].
  destruct Hinv as [Hs Hc Hl Hd Hb Hv Hp].
  unfold send_nb, is_parked.
  destruct (at_pc st) eqn:Hpc; try case_decide; try done.
  all: constructor; simpl; rewrite ?Hpc; try done.
  all: try (rewrite Hd, elem_of_app, list_elem_of_singleton; naive_solver).
  all: try (intros s'; rewrite elem_of_app, list_elem_of_singleton; naive_solver).
  all: try (destruct (buf (ch st)); simpl in *; [|lia]).
  all: try (rewrite length_app; simpl; lia).
  all: try (intros s'; rewrite ?elem_of_app, ?list_elem_of_singleton; set_solver).
  all: try (destruct_and?; split_and?; try done; try (destruct r; simpl in *; rewrite ?elem_of_app; auto)).
  all: try (rewrite elem_of_app, list_elem_of_singleton; auto).
  congruence.
Qed.

Lemma Wait_step_inv sigs st e st' :
  inv sigs st → step st e = Some st' → inv sigs st'.
Proof.
  intros Hinv Hstep. destruct e; simpl in Hstep.
  7: { destruct (ctx_done st) eqn:Hdn; simplify_eq.
       destruct Hinv as [Hs Hc Hl Hd Hb Hv Hp].
       constructor; simpl; try done.
       - rewrite elem_of_app, list_elem_of_singleton. naive_solver.
       - intros s Hin. rewrite elem_of_app. auto.
       - intros s. rewrite elem_of_app, list_elem_of_singleton. naive_solver.
       - unfold is_parked. destruct (at_pc st); destruct_and?; split_and?; try done.
         all: destruct r; simpl in *; rewrite ?elem_of_app; auto; congruence. }
  6: { simplify_eq. by apply Wait_raise_inv. }
  all: destruct Hinv as [Hs Hc Hl Hd Hb Hv Hp].
  all: destruct (at_pc st) eqn:Hpc; simplify_eq.
  - destruct Hp as (Hh & Hdf & Hbf).
    constructor; simpl; try done. by rewrite Hh, Hdf.
  - destruct (buf (ch st)) as [|s rest] eqn:Hbuf; simplify_eq.
    destruct Hp as (Hh & Hdf).
    constructor; simpl; try done.
    + simpl in Hl. lia.
    + intros s' Hin. apply Hb. apply elem_of_cons. by right.
    + split_and!; try done. apply Hb. apply elem_of_cons. by left.
  - destruct (ctx_done st) eqn:Hdn; simplify_eq.
    constructor; simpl; rewrite ?Hdn; try done. by destruct_and?.
  - destruct (buf (ch st)) as [|s rest] eqn:Hbuf; simplify_eq.
    destruct (ctx_done st) eqn:Hdn; simplify_eq.
    constructor; simpl; rewrite ?Hbuf, ?Hdn; try done. by destruct_and?.
  - destruct Hp as (Hh & Hdf & Hr). rewrite Hdf. simpl.
    constructor; simpl; try done.
Qed.

Lemma Wait_exec_inv sigs st tr st' :
  inv sigs st → exec st tr = Some st' → inv sigs st'.
Proof.
  revert st. induction tr as [|e tr IH]; simpl; intros st Hinv Hex.
  - by simplify_eq.
  - destruct (step st e) as [st1|] eqn:Hst; [|done].
    eapply IH; [|done]. by eapply Wait_step_inv.
Qed.

Lemma Wait_reachable_inv done0 sigs tr st :
  exec (init done0 sigs) tr = Some st → inv sigs st.
Proof. apply Wait_exec_inv, Wait_init_inv. Qed.

(** Events of the environment leave a full buffer and a call that is not
    parked as they are. *)
Lemma env_keeps_buffer st e st' s :
  env_event e = true → cap (ch st) = 1 → buf (ch st) = [s] →
  at_pc st = Select → step st e = Some st' →
  buf (ch st') = [s] ∧ at_pc st' = Select ∧ cap (ch st') = 1
  ∧ handler st' = handler st.
Proof.
  intros He Hc Hb Hpc Hst. destruct e; try discriminate; simpl in Hst.
  - simplify_eq. unfold raise, send_nb, is_parked. rewrite Hpc, Hb, Hc. simpl.
    by destruct (want (handler st) s0).
  - destruct (ctx_done st); simplify_eq. simpl.
    unfold is_parked. by rewrite Hpc.
Qed.

Lemma env_schedule_keeps_buffer es : ∀ st st' s,
  forallb env_event es = true → cap (ch st) = 1 → buf (ch st) = [s] →
  at_pc st = Select → exec st es = Some st' →
  buf (ch st') = [s] ∧ at_pc st' = Select ∧ handler st' = handler st.
Proof.
  induction es as [|e es IH]; simpl; intros st st' s He Hc Hb Hpc Hex.
  - by simplify_eq.
  - apply andb_prop in He as [He1 He2].
    destruct (step st e) as [st1|] eqn:Hst; [|done].
    destruct (env_keeps_buffer _ _ _ _ He1 Hc Hb Hpc Hst) as (?&?&?&Hh).
    rewrite <- Hh. by eapply IH.
Qed.

(** A monitored signal raised after [Notify] and before the [select] goes
    into the buffer. *)
Lemma raise_buffers st s :
  at_pc st = Select → buf (ch st) = [] → cap (ch st) = 1 →
  want (handler st) s = true →
  buf (ch (raise s st)) = [s] ∧ at_pc (raise s st) = Select
  ∧ cap (ch (raise s st)) = 1 ∧ handler (raise s st) = handler st
  ∧ history (raise s st) = history st ++ [delivered s].
Proof.
  intros Hpc Hb Hc Hw. unfold raise, send_nb, is_parked.
  by rewrite Hw, Hpc, Hb, Hc.
Qed.

(** With no room and nobody parked the send is dropped: the capacity is
    what keeps the signal. *)
Lemma send_nb_unbuffered (s : Signal) :
  send_nb false (make_chan 0) s = Dropped.
Proof. reflexivity. Qed.

(** The call can always go on to its return once [ctx] is done or a signal
    is in the queue: at most three of its own steps. *)
Lemma can_return sigs st :
  inv sigs st → ctx_done st = true ∨ buf (ch st) ≠ [] →
  ∃ tr st' r, forallb (λ e, negb (env_event e)) tr = true
              ∧ exec st tr = Some st' ∧ at_pc st' = Returned r.
Proof.
  intros [Hs Hc Hl Hd Hb Hv Hp] Hready.
  destruct (at_pc st) eqn:Hpc.
  - destruct Hp as (Hh & Hdf & Hbf).
    destruct Hready as [Hdn|Hne]; [|done].
    eexists [EvNotify; EvSelectDone; EvReturn], _, None.
    split; [done|]. simpl. rewrite Hpc. simpl. rewrite Hdn. simpl. done.
  - destruct (ctx_done st) eqn:Hdn.
    + eexists [EvSelectDone; EvReturn], _, None.
      split; [done|]. simpl. rewrite Hpc, Hdn. simpl. done.
    + destruct Hready as [?|Hne]; [done|].
      destruct (buf (ch st)) as [|s rest] eqn:Hbuf; [done|].
      eexists [EvSelectRecv; EvReturn], _, (Some s).
      split; [done|]. simpl. rewrite Hpc, Hbuf. simpl. done.
  - destruct Hp as (_ & _ & Hbf & Hdn). destruct Hready; congruence.
  - eexists [EvReturn], _, r. split; [done|]. simpl. rewrite Hpc. done.
  - eexists [], _, r. done.
Qed.

Lemma done_in_history sigs st :
  inv sigs st → ctx_done st = false → ctx_became_done ∉ history st.
Proof. intros [_ _ _ Hd _ _ _] Hf Hin. apply Hd in Hin. congruence. Qed.

(** C3, amended: a returning [Wait] has exactly two outcomes, a signal
    that is monitored and was delivered to its queue, or nil with [ctx]
    done; when only one of the two has happened the result is settled (no
    delivery: nil; [ctx] not done: a signal); while a case is not ready the
    [select] cannot take it; once [ctx] is done the call can return by
    steps of its own; and a [ctx] done at the call, met by no signal,
    gives nil at once. *)
Theorem Wait_two_outcomes (done0 : bool) (sigs : list Signal)
    (tr : list event) (st : state) :
  exec (init done0 sigs) tr = Some st →
  (∀ r, at_pc st = Returned r →
     match r with
     | Some s => delivered s ∈ history st ∧ s ∈ monitored sigs
     | None => ctx_done st = true ∧ ctx_became_done ∈ history st
     end)
  ∧ (∀ r, at_pc st = Returned r →
       (∀ s, delivered s ∉ history st) → r = None)
  ∧ (∀ r, at_pc st = Returned r →
       ctx_became_done ∉ history st → ∃ s, r = Some s)
  ∧ (buf (ch st) = [] → step st EvSelectRecv = None)
  ∧ (ctx_done st = false → step st EvSelectDone = None)
  ∧ (ctx_done st = true →
       ∃ tr' st' r, forallb (λ e, negb (env_event e)) tr' = true
                    ∧ exec st tr' = Some st' ∧ at_pc st' = Returned r)
  ∧ Wait true sigs [EvNotify; EvSelectDone; EvReturn] = Some None.
Proof.
  intros Hex. pose proof (Wait_reachable_inv _ _ _ _ Hex) as Hinv.
  pose proof Hinv as [Hs Hc Hl Hd Hb Hv Hp].
  assert (Hret : ∀ r, at_pc st = Returned r →
     match r with
     | Some s => delivered s ∈ history st ∧ s ∈ monitored sigs
     | None => ctx_done st = true ∧ ctx_became_done ∈ history st
     end).
  { intros r Hr. rewrite Hr in Hp. destruct Hp as (_ & _ & Hok).
    destruct r as [s|]; simpl in Hok.
    - split; [done|]. by apply Hv.
    - split; [done|]. by apply Hd. }
  split_and!.
  - exact Hret.
  - intros r Hr Hno. specialize (Hret r Hr). destruct r as [s|]; [|done].
    destruct Hret as [Hin _]. by destruct (Hno s).
  - intros r Hr Hno. specialize (Hret r Hr). destruct r as [s|]; [eauto|].
    by destruct Hret as [_ Hin].
  - intros Hbuf. simpl. rewrite Hbuf. by destruct (at_pc st).
  - intros Hdn. simpl. rewrite Hdn. by destruct (at_pc st).
  - intros Hdn. eapply can_return; eauto.
  - reflexivity.
Qed.

Lemma Wait_two_outcomes_witness :
  ∃ st, exec (init false [SIGINT; SIGTERM])
          [EvNotify; EvPark; EvRaise SIGTERM; EvReturn] = Some st
        ∧ at_pc st = Returned (Some SIGTERM)
        ∧ delivered SIGTERM ∈ history st
        ∧ SIGTERM ∈ monitored [SIGINT; SIGTERM].
Proof.
  eexists. split; [vm_compute; reflexivity|]. split; [reflexivity|].
  destruct (Wait_two_outcomes false [SIGINT; SIGTERM]
              [EvNotify; EvPark; EvRaise SIGTERM; EvReturn] _
              ltac:(vm_compute; reflexivity)) as [H _].
  exact (H (Some SIGTERM) eq_refl).
Defined.

(** C3, as it stands, fails: here [ctx] is done when [Wait] is called, a
    [SIGINT] is delivered between [signal.Notify] and the [select], both
    cases of the [select] are ready, and the [select] takes the signal. [ctx]
    became done before any signal was delivered, and [Wait] returns
    [SIGINT], not nil. *)
Lemma Wait_done_first_returns_signal :
  ∃ st, exec (init true [SIGINT])
          [EvNotify; EvRaise SIGINT; EvSelectRecv; EvReturn] = Some st
        ∧ at_pc st = Returned (Some SIGINT)
        ∧ done_first st
        ∧ ¬ (∀ done0 sigs tr st r,
               exec (init done0 sigs) tr = Some st → at_pc st = Returned r →
               (r = None ↔ done_first st)).
Proof.
  eexists. split; [vm_compute; reflexivity|].
  split; [reflexivity|]. split; [reflexivity|].
  intros H.
  specialize (H true [SIGINT]
                [EvNotify; EvRaise SIGINT; EvSelectRecv; EvReturn]).
  destruct (exec _ _) as [st|] eqn:E; vm_compute in E; [|discriminate].
  injection E as <-.
  destruct (H _ (Some SIGINT) eq_refl eq_refl) as [_ H2].
  discriminate H2. reflexivity.
Qed.

(** The other side fails too: a [SIGINT] delivered first, [ctx] done before
    the [select] runs, and the [select] takes [ctx.Done()]: nil, although a
    signal was delivered before [ctx] became done. *)
Lemma Wait_signal_first_returns_nil :
  ∃ st, exec (init false [SIGINT])
          [EvNotify; EvRaise SIGINT; EvCtxDone; EvSelectDone; EvReturn]
        = Some st
        ∧ at_pc st = Returned None
        ∧ ¬ done_first st.
Proof.
  eexists. split; [vm_compute; reflexivity|].
  split; [reflexivity|]. unfold done_first. simpl. discriminate.
Qed.

Lemma delivered_signals_app h1 h2 :
  delivered_signals (h1 ++ h2) = delivered_signals h1 ++ delivered_signals h2.
Proof. apply omap_app. Qed.

Lemma head_app_Some {A} (l1 l2 : list A) x :
  head l1 = Some x → head (l1 ++ l2) = Some x.
Proof. by destruct l1. Qed.

Lemma Wait_first_step sigs st e st' :
  inv sigs st → first_inv st → step st e = Some st' → first_inv st'.
Proof.
  intros [Hs Hc Hl Hd Hb Hv Hp] Hf Hst. unfold first_inv in *.
  destruct e; simpl in Hst.
  - destruct (at_pc st) eqn:Hpc; try discriminate. injection Hst as <-.
    simpl. destruct Hp as (_ & _ & ->). done.
  - destruct (at_pc st) eqn:Hpc; try discriminate.
    destruct (buf (ch st)) as [|s rest] eqn:Hbuf; try discriminate.
    injection Hst as <-. simpl. by rewrite Hf.
  - destruct (at_pc st) eqn:Hpc; try discriminate.
    destruct (ctx_done st); try discriminate. by injection Hst as <-.
  - destruct (at_pc st) eqn:Hpc; try discriminate.
    destruct (buf (ch st)) as [|s rest] eqn:Hbuf; try discriminate.
    destruct (ctx_done st); try discriminate. injection Hst as <-.
    simpl. by rewrite Hf.
  - destruct (at_pc st) eqn:Hpc; try discriminate. injection Hst as <-.
    simpl. destruct Hp as (_ & -> & _). simpl. done.
  - injection Hst as <-. unfold raise.
    destruct (want (handler st) s) eqn:Hw; [|done].
    unfold send_nb, is_parked.
    destruct (at_pc st) eqn:Hpc.
    + destruct Hp as (Hh & _). by rewrite Hh in Hw.
    + case_decide as Hlen; simpl; rewrite ?Hpc; [|done].
      rewrite delivered_signals_app, Hf. simpl.
      destruct (buf (ch st)); [done|]. simpl in Hlen. lia.
    + simpl. rewrite delivered_signals_app, Hf. done.
    + case_decide as Hlen; simpl; rewrite ?Hpc; [|done].
      destruct r as [x|]; [|done].
      rewrite delivered_signals_app. by apply head_app_Some.
    + destruct Hp as (Hh & _). by rewrite Hh in Hw.
  - destruct (ctx_done st); try discriminate. injection Hst as <-.
    simpl. rewrite delivered_signals_app. simpl. rewrite app_nil_r.
    unfold is_parked. destruct (at_pc st) eqn:Hpc; done.
Qed.

Lemma Wait_first_exec sigs tr : ∀ st st',
  inv sigs st → first_inv st → exec st tr = Some st' → first_inv st'.
Proof.
  induction tr as [|e tr IH]; simpl; intros st st' Hinv Hf Hex.
  - by injection Hex as <-.
  - destruct (step st e) as [st1|] eqn:Hst; [|done].
    eapply IH; [by eapply Wait_step_inv|by eapply Wait_first_step|done].
Qed.

(** The signal [Wait] returns is the first one that was delivered to its
    queue: later signals never overtake it, whether they were dropped at the
    full buffer or arrived after the [select] had chosen. *)
Theorem Wait_returns_the_first_delivered_signal
    (done0 : bool) (sigs : list Signal) (tr : list event) (st : state)
    (s : Signal) :
  exec (init done0 sigs) tr = Some st →
  at_pc st = Returned (Some s) →
  head (delivered_signals (history st)) = Some s.
Proof.
  intros Hex Hpc.
  assert (Hf : first_inv st).
  { eapply Wait_first_exec; [apply Wait_init_inv| |exact Hex].
    unfold first_inv. simpl. by destruct done0. }
  unfold first_inv in Hf. by rewrite Hpc in Hf.
Qed.

Lemma Wait_returns_the_first_delivered_signal_witness :
  ∃ st, exec (init false [])
          [EvNotify; EvRaise SIGTERM; EvRaise SIGINT; EvSelectRecv;
           EvRaise SIGHUP; EvReturn] = Some st
        ∧ at_pc st = Returned (Some SIGTERM)
        ∧ head (delivered_signals (history st)) = Some SIGTERM.
Proof.
  eexists. split; [vm_compute; reflexivity|]. split; [reflexivity|].
  exact (Wait_returns_the_first_delivered_signal false []
           [EvNotify; EvRaise SIGTERM; EvRaise SIGINT; EvSelectRecv;
            EvRaise SIGHUP; EvReturn] _ SIGTERM
           ltac:(vm_compute; reflexivity) eq_refl).
Defined.

Lemma elem_delivered_signals (h : list happened) (s : Signal) :
  s ∈ delivered_signals h ↔ delivered s ∈ h.
Proof.
  unfold delivered_signals. rewrite list_elem_of_omap. split.
  - intros (x & Hx & E). destruct x; by simplify_eq.
  - intros H. by exists (delivered s).
Qed.

(** After the return only the environment moves, and it reaches neither the
    handler table nor the channel. *)
Lemma Wait_returned_step st e st' r :
  at_pc st = Returned r → handler st = None → step st e = Some st' →
  at_pc st' = Returned r ∧ handler st' = None ∧ ch st' = ch st
  ∧ delivered_signals (history st') = delivered_signals (history st).
Proof.
  intros Hpc Hh Hst. destruct e; simpl in Hst; rewrite ?Hpc in Hst;
    try discriminate.
  - injection Hst as <-. unfold raise. by rewrite Hh.
  - destruct (ctx_done st); try discriminate. injection Hst as <-. simpl.
    unfold is_parked. rewrite Hpc, delivered_signals_app. simpl.
    by rewrite app_nil_r.
Qed.

Lemma Wait_returned_exec es : ∀ st st' r,
  at_pc st = Returned r → handler st = None → exec st es = Some st' →
  at_pc st' = Returned r ∧ handler st' = None ∧ ch st' = ch st
  ∧ delivered_signals (history st') = delivered_signals (history st).
Proof.
  induction es as [|e es IH]; simpl; intros st st' r Hpc Hh Hex.
  - by injection Hex as <-.
  - destruct (step st e) as [st1|] eqn:Hst; [|done].
    destruct (Wait_returned_step _ _ _ _ Hpc Hh Hst) as (H1 & H2 & H3 & H4).
    rewrite <- H3, <- H4. by eapply IH.
Qed.

(** [Wait] registers its channel only inside the call and always removes it
    before it returns, whichever case the [select] took; after the return
    no signal reaches the channel any more. *)
Theorem Wait_releases_its_subscription
    (done0 : bool) (sigs : list Signal) (tr : list event) (st : state)
    (r : option Signal) :
  exec (init done0 sigs) tr = Some st → at_pc st = Returned r →
  handler (init done0 sigs) = None
  ∧ handler st = None ∧ defers st = []
  ∧ (∀ s, raise s st = st)
  ∧ (∀ es st', exec st es = Some st' →
       at_pc st' = Returned r ∧ handler st' = None ∧ ch st' = ch st
       ∧ delivered_signals (history st')
         = delivered_signals (history st)).
Proof.
  intros Hex Hpc. pose proof (Wait_reachable_inv _ _ _ _ Hex) as Hinv.
  destruct Hinv as [_ _ _ _ _ _ Hp]. rewrite Hpc in Hp.
  destruct Hp as (Hh & Hdf & _). split_and!; try done.
  - intros s. unfold raise. by rewrite Hh.
  - intros es st' Hex'. by eapply Wait_returned_exec.
Qed.

Lemma Wait_releases_its_subscription_witness :
  ∃ st, exec (init true [SIGINT]) [EvNotify; EvSelectDone; EvReturn] = Some st
        ∧ at_pc st = Returned None ∧ handler st = None.
Proof.
  eexists. split; [vm_compute; reflexivity|]. split; [reflexivity|].
  exact (proj1 (proj2 (Wait_releases_its_subscription true [SIGINT]
                         [EvNotify; EvSelectDone; EvReturn] _ None
                         ltac:(vm_compute; reflexivity) eq_refl))).
Defined.

(** [Wait] monitors all signals when it is given none and exactly the listed
    ones otherwise: while it waits its handler is that set, only signals of
    the set are ever delivered to its queue, a signal outside it changes
    nothing, and a signal of the set raised while the call is parked, or at
    the [select] with an empty queue, is delivered. *)
Theorem Wait_monitors_the_requested_signals
    (done0 : bool) (sigs : list Signal) (tr : list event) (st : state) :
  exec (init done0 sigs) tr = Some st →
  (at_pc st = Select ∨ at_pc st = Parked →
     handler st = Some (monitored sigs))
  ∧ (∀ s, s ∈ delivered_signals (history st) → s ∈ monitored sigs)
  ∧ (∀ s, s ∉ monitored sigs → raise s st = st)
  ∧ (∀ s, s ∈ monitored sigs →
       at_pc st = Parked ∨ (at_pc st = Select ∧ buf (ch st) = []) →
       history (raise s st) = history st ++ [delivered s])
  ∧ (sigs = [] → ∀ s, s ∈ monitored sigs ↔ s < numSig)
  ∧ (sigs ≠ [] → ∀ s, s ∈ monitored sigs ↔ s ∈ sigs ∧ s < numSig).
Proof.
  intros Hex. pose proof (Wait_reachable_inv _ _ _ _ Hex) as Hinv.
  pose proof Hinv as [Hs Hc Hl Hd Hb Hv Hp]. split_and!.
  - intros [E|E]; rewrite E in Hp; by destruct_and?.
  - intros s Hin. apply Hv. by apply elem_delivered_signals.
  - intros s Hno. unfold raise.
    destruct (want (handler st) s) eqn:Hw; [|done].
    by destruct (want_monitored _ _ _ Hinv Hw).
  - intros s Hin Hat. unfold raise, want, send_nb, is_parked.
    destruct Hat as [E|[E Hbuf]]; rewrite E in Hp |- *.
    + destruct Hp as (-> & _). by rewrite bool_decide_eq_true_2.
    + destruct Hp as (-> & _). rewrite bool_decide_eq_true_2 by done.
      rewrite Hbuf, Hc. simpl. done.
  - intros ->. apply monitored_all.
  - intros Hne s. by apply monitored_listed.
Qed.

Lemma Wait_monitors_the_requested_signals_witness :
  ∃ st, exec (init false [SIGINT; SIGTERM]) [EvNotify; EvPark] = Some st
        ∧ handler st = Some (monitored [SIGINT; SIGTERM])
        ∧ raise SIGHUP st = st.
Proof.
  eexists. split; [vm_compute; reflexivity|].
  destruct (Wait_monitors_the_requested_signals false [SIGINT; SIGTERM]
              [EvNotify; EvPark] _ ltac:(vm_compute; reflexivity))
    as (H1 & _ & H3 & _).
  split; [exact (H1 (or_intror eq_refl))|].
  apply H3. vm_compute. discriminate.
Defined.

(** The queue of [Wait] has room for one signal, so a monitored signal
    raised after [signal.Notify] and before the [select] is not lost: it
    stays in the queue whatever else the environment does, and the [select]
    can take it and return it. *)
Theorem Wait_keeps_a_signal_raised_before_the_select
    (done0 : bool) (sigs : list Signal) (tr : list event) (st : state) :
  exec (init done0 sigs) tr = Some st →
  cap (ch st) = 1
  ∧ (at_pc st = Select → buf (ch st) = [] →
     ∀ s es st', s ∈ monitored sigs → forallb env_event es = true →
       exec st (EvRaise s :: es) = Some st' →
       buf (ch st') = [s] ∧ at_pc st' = Select
       ∧ ∃ st'', exec st' [EvSelectRecv; EvReturn] = Some st''
                 ∧ at_pc st'' = Returned (Some s)).
Proof.
  intros Hex. pose proof (Wait_reachable_inv _ _ _ _ Hex) as Hinv.
  pose proof Hinv as [Hs Hc Hl Hd Hb Hv Hp]. split; [done|].
  intros Hpc Hbuf s es st' Hin Hes Hex'. simpl in Hex'.
  rewrite Hpc in Hp. destruct Hp as (Hh & Hdf).
  assert (Hw : want (handler st) s = true).
  { unfold want. rewrite Hh. by apply bool_decide_eq_true_2. }
  destruct (raise_buffers st s Hpc Hbuf Hc Hw) as (B1 & B2 & B3 & B4 & B5).
  destruct (env_schedule_keeps_buffer es _ _ s Hes B3 B1 B2 Hex')
    as (K1 & K2 & K3).
  split_and!; try done.
  assert (Hinv' : inv sigs st').
  { eapply Wait_exec_inv; [|exact Hex']. by apply Wait_raise_inv. }
  destruct Hinv' as [_ _ _ _ _ _ Hp']. rewrite K2 in Hp'.
  destruct Hp' as (_ & Hdf').
  eexists. simpl. rewrite K2, K1. simpl. rewrite Hdf'. simpl. done.
Qed.

Lemma Wait_keeps_a_signal_raised_before_the_select_witness :
  ∃ st, exec (init false [SIGINT]) [EvNotify] = Some st
        ∧ ∃ st', exec st [EvRaise SIGINT; EvCtxDone; EvRaise SIGINT] = Some st'
                 ∧ buf (ch st') = [SIGINT].
Proof.
  eexists. split; [vm_compute; reflexivity|].
  eexists. split; [vm_compute; reflexivity|].
  destruct (Wait_keeps_a_signal_raised_before_the_select false [SIGINT]
              [EvNotify] _ ltac:(vm_compute; reflexivity)) as [_ H].
  exact (proj1 (H eq_refl eq_refl SIGINT [EvCtxDone; EvRaise SIGINT] _
                  ltac:(vm_compute; reflexivity)
                  eq_refl ltac:(vm_compute; reflexivity))).
Defined.

End WaitProps.

(** ** [NotifyContext] *)

Module NotifyProps.
Import NotifyM NotifyInv OsSignalProps ErrorProps.

Lemma Cause_of_done (p : Context) (e : error) :
  Err p = Some e → Some (default e (Cause p)) = Cause p.
Proof.
  intros He. unfold Cause. rewrite He.
  destruct (Value p cancelCtxKey) as [| |? [cs|]]; done.
Qed.

Lemma cancel_canceled e cs c :
  is_Some (err c) → cancelCtx_cancel e cs c = c.
Proof. intros [x Hx]. unfold cancelCtx_cancel. by rewrite Hx. Qed.

Lemma cancel_fresh e cs c :
  err c = None →
  cancelCtx_cancel e cs c =
    {| cancelCtx_Context := cancelCtx_Context c;
       err := Some e; cause := Some (default e cs) |}.
Proof. intros Hx. unfold cancelCtx_cancel. by rewrite Hx. Qed.

Lemma cancel_parent e cs c :
  cancelCtx_Context (cancelCtx_cancel e cs c) = cancelCtx_Context c.
Proof. unfold cancelCtx_cancel. by destruct (err c). Qed.

Lemma cancel_is_Some e cs c : is_Some (err (cancelCtx_cancel e cs c)).
Proof. unfold cancelCtx_cancel. destruct (err c) eqn:E; simpl; eauto. Qed.

Lemma propagate_parent p c :
  cancelCtx_Context (propagate_now p c) = cancelCtx_Context c.
Proof.
  unfold propagate_now. destruct (Done p), (Err p); try done.
  apply cancel_parent.
Qed.

Lemma Notify_init_inv r p0 sigs : inv r sigs (init r p0 sigs).
Proof.
  constructor; simpl; try done; try lia.
  - intros s H; inversion H.
  - intros s H; inversion H.
  - by left.
Qed.

Lemma cause_ok_ext st st' :
  rev st' = rev st → ctx st' = ctx st →
  (∀ h, h ∈ history st → h ∈ history st') →
  cause_ok st → cause_ok st'.
Proof.
  unfold cause_ok, parent. intros -> -> Hh H.
  destruct H as [H|[H|[H|(s & ? & ? & ? & ?)]]]; eauto 10.
Qed.

Lemma main_ok_ext sigs st st' :
  main st' = main st → handler st' = handler st → defers st' = defers st →
  listener st' = listener st → rev st' = rev st →
  err (ctx st') = err (ctx st) → cause (ctx st') = cause (ctx st) →
  main_ok sigs st → main_ok sigs st'.
Proof. unfold main_ok. by intros -> -> -> -> -> -> ->. Qed.

Lemma Notify_raise_inv r sigs st s : inv r sigs st → inv r sigs (raise s st).
Proof.
  intros [Hr Hs Hc Hl Hb Hv Hm Hli Hca]. unfold raise.
  destruct (want (handler st) s) eqn:Hw; [|done].
  assert (Hmon : s ∈ monitored sigs).
  { unfold want in Hw. destruct (handler st) as [m|] eqn:Hh; [|done].
    apply bool_decide_eq_true in Hw.
    unfold main_ok in Hm. rewrite Hh in Hm.
    destruct (main st), (rev st); destruct_or?; destruct_and?; simplify_eq; done. }
  unfold send_nb.
  destruct (is_parked st) eqn:Hpk.
  - unfold is_parked in Hpk. destruct (listener st) eqn:Hlis; try done.
    constructor; simpl; try done.
    + intros s' Hin. apply elem_of_app. left. by apply Hb.
    + intros s' [Hin|Hin%list_elem_of_singleton]%elem_of_app; [by apply Hv|].
      by simplify_eq.
    + unfold main_ok in *. simpl. rewrite Hlis in Hm.
      destruct (main st); destruct_and?; try done; congruence.
    + unfold listener_ok. simpl. apply elem_of_app. right.
      by apply list_elem_of_singleton.
    + eapply cause_ok_ext; [..|exact Hca]; try done.
      intros h Hh. simpl. apply elem_of_app. by left.
  - case_decide as Hlen; [|done].
    assert (Hbuf : buf (ch st) = []).
    { destruct (buf (ch st)); [done|]. simpl in Hlen. lia. }
    constructor; simpl; rewrite ?Hbuf; try done.
    + intros s' Hin%list_elem_of_singleton. subst. apply elem_of_app. right.
      by apply list_elem_of_singleton.
    + intros s' [Hin|Hin%list_elem_of_singleton]%elem_of_app; [by apply Hv|].
      by simplify_eq.
    + unfold listener_ok in *. simpl.
      unfold is_parked in Hpk. destruct (listener st); try done.
      apply elem_of_app. by left.
    + eapply cause_ok_ext; [..|exact Hca]; try done.
      intros h Hh. simpl. apply elem_of_app. by left.
Qed.

Lemma Done_cancelCtx c : Done (cancelCtx_iface c) = true ↔ is_Some (err c).
Proof. simpl. apply bool_decide_eq_true. Qed.

Lemma Done_cancelCtx_false c : Done (cancelCtx_iface c) = false ↔ err c = None.
Proof.
  simpl. rewrite bool_decide_eq_false. split.
  - intros H. destruct (err c); [|done]. destruct H; eauto.
  - intros -> [x Hx]. done.
Qed.

(** Replacing the child by a context that keeps what a canceled child
    already holds. *)
Lemma set_ctx_inv r sigs st c :
  inv r sigs st → main st ≠ Entry →
  (is_Some (err (ctx st)) → err c = err (ctx st)) →
  cause_ok (set_ctx c st) →
  inv r sigs (set_ctx c st).
Proof.
  intros [Hr Hs Hc Hl Hb Hv Hm Hli Hca] Hne Hkeep Hca'.
  constructor; simpl; try done.
  - unfold main_ok in *. simpl.
    destruct (main st) eqn:Hmain; try done.
    + destruct Hm as (? & -> & ?). done.
    + destruct Hm as (? & -> & ?). done.
    + destruct (rev st); destruct_or?; destruct_and?;
        rewrite ?Hkeep by done; eauto 10.
    + destruct_and?. split_and!; try done. by rewrite Hkeep.
  - unfold listener_ok in *. simpl.
    destruct (listener st) eqn:Hlis; simpl; try done.
    destruct (bool_decide (is_Some (err c))) eqn:Hd; [done|].
    apply Done_cancelCtx_false in Hd. by destruct_and?.
Qed.

Lemma cause_ok_cancel st cs :
  cause_ok st →
  (cs = None ∨ ∃ s, cs = Some (errCanceled {| signal := Some s |})
                    ∧ rev st = with_cause ∧ delivered s ∈ history st) →
  cause_ok (set_ctx (CancelCauseFunc cs (ctx st)) st).
Proof.
  intros Hca Hcs. unfold CancelCauseFunc.
  destruct (err (ctx st)) as [x|] eqn:He.
  - rewrite cancel_canceled by eauto.
    eapply cause_ok_ext; [..|exact Hca]; done.
  - rewrite cancel_fresh by done. unfold cause_ok. simpl.
    destruct Hcs as [->|(s & -> & ? & ?)]; simpl; eauto 10.
Qed.

Lemma cause_ok_propagate st :
  cause_ok st → cause_ok (set_ctx (propagate_now (parent st) (ctx st)) st).
Proof.
  intros Hca. unfold propagate_now.
  destruct (Done (parent st)) eqn:Hd;
    [|eapply cause_ok_ext; [..|exact Hca]; done].
  destruct (Err (parent st)) as [e|] eqn:He;
    [|eapply cause_ok_ext; [..|exact Hca]; done].
  destruct (err (ctx st)) as [x|] eqn:Hx.
  - rewrite cancel_canceled by eauto.
    eapply cause_ok_ext; [..|exact Hca]; done.
  - rewrite cancel_fresh by done. unfold cause_ok, parent. simpl.
    right; right; left. fold (parent st). rewrite Hd, He.
    split_and!; eauto. by apply Cause_of_done.
Qed.

Lemma keep_cancel e cs c :
  is_Some (err c) → err (cancelCtx_cancel e cs c) = err c.
Proof. intros H. by rewrite cancel_canceled. Qed.

Lemma keep_propagate p c :
  is_Some (err c) → err (propagate_now p c) = err c.
Proof.
  intros H. unfold propagate_now. destruct (Done p), (Err p); try done.
  by apply keep_cancel.
Qed.

Lemma main_step_inv r sigs st st' :
  inv r sigs st → main_step st = Some st' → inv r sigs st'.
Proof.
  intros Hinv Hst. pose proof Hinv as [Hr Hs Hc Hl Hb Hv Hm Hli Hca].
  unfold main_step in Hst. unfold main_ok in Hm.
  destruct (main st) eqn:Hmain; try discriminate; injection Hst as <-.
  - (* deriving the child *)
    destruct Hm as (Hh & Hdf & Hlis & He & Hcs).
    assert (Hca' : cause_ok (set_ctx (WithCancelCause (parent st)) st)).
    { unfold WithCancelCause, propagate_now.
      destruct (Done (parent st)) eqn:Hd; [|by left].
      destruct (Err (parent st)) as [e|] eqn:Hep; [|by left].
      rewrite cancel_fresh by done. unfold cause_ok, parent. simpl.
      right; right; left. fold (parent st). rewrite Hd, Hep.
      split_and!; eauto. by apply Cause_of_done. }
    simpl. destruct (rev st) eqn:Hrev.
    all: constructor; simpl; try done.
    all: try (unfold main_ok; simpl; rewrite ?Hrev, ?Hlis, ?Hh, ?Hdf; done).
    all: try (unfold listener_ok; simpl; by rewrite ?Hlis).
    all: try (eapply cause_ok_ext; [..|exact Hca']; done).
  - (* Notify *)
    destruct Hm as (Hh & Hlis & Hdf).
    simpl. destruct (rev st) eqn:Hrev.
    all: constructor; simpl; try done.
    all: try (unfold main_ok; simpl; rewrite ?Hrev, ?Hlis, ?Hh, ?Hdf, ?Hs; done).
    all: try (unfold listener_ok; simpl; by rewrite ?Hlis).
    all: try (eapply cause_ok_ext; [..|exact Hca]; done).
  - (* the test, and the listener *)
    destruct Hm as (Hh & Hlis & Hdf).
    simpl. destruct (err (ctx st)) eqn:Herr; simpl; destruct (rev st) eqn:Hrev.
    all: constructor; simpl; try done.
    all: try (unfold main_ok; simpl; rewrite ?Hrev, ?Hlis, ?Hh, ?Hdf, ?Hs; done).
    all: try (unfold listener_ok; simpl; by rewrite ?Hlis).
    all: try (eapply cause_ok_ext; [..|exact Hca]; done).
Qed.

Lemma inv_intro r sigs st st' :
  inv r sigs st →
  rev st' = rev st → signals st' = signals st → ch st' = ch st →
  history st' = history st →
  main_ok sigs st' → listener_ok st' → cause_ok st' →
  inv r sigs st'.
Proof.
  intros [Hr Hs Hc Hl Hb Hv Hm Hli Hca] E1 E2 E3 E4 ? ? ?.
  constructor; rewrite ?E1, ?E2, ?E3, ?E4; done.
Qed.

Lemma listener_ok_wake st st' c :
  listener_ok st → ctx st' = c → listener st' = wake c (listener st) →
  ch st' = ch st → history st' = history st →
  (is_Some (err (ctx st)) → is_Some (err c)) →
  listener_ok st'.
Proof.
  unfold listener_ok. intros H -> -> -> -> Hk.
  destruct (listener st) eqn:Hlis; simpl; try done.
  destruct (bool_decide (is_Some (err c))) eqn:Hd; [done|].
  apply Done_cancelCtx_false in Hd. by destruct_and?.
Qed.

Lemma Notify_step_inv r sigs st e st' :
  inv r sigs st → step st e = Some st' → inv r sigs st'.
Proof.
  intros Hinv Hst. pose proof Hinv as [Hr Hs Hc Hl Hb Hv Hm Hli Hca].
  destruct e; simpl in Hst.
  - by eapply main_step_inv.
  - (* run ends *)
    destruct (main st) eqn:Hmain; try discriminate. injection Hst as <-.
    apply (inv_intro _ _ st); try done.
    unfold main_ok in *. simpl. rewrite Hmain in Hm.
    destruct (rev st); destruct_and?; eauto.
  - (* a deferred call, or the exit *)
    destruct (main st) eqn:Hmain; try discriminate.
    unfold main_ok in Hm. rewrite Hmain in Hm.
    destruct (defers st) as [|d ds] eqn:Hdf; injection Hst as <-.
    + apply (inv_intro _ _ st); try done.
      unfold main_ok. simpl.
      destruct (rev st); destruct_or?; destruct_and?; simplify_eq; done.
    + destruct (rev st) eqn:Hrev; destruct_or?; destruct_and?; simplify_eq.
      * (* stop of notify.go: cancel, then Stop *)
        apply (inv_intro _ _ st); try done.
        -- unfold main_ok. simpl. rewrite Hmain, Hrev. right.
           split_and!; try done. apply cancel_is_Some.
        -- eapply listener_ok_wake; [exact Hli|done..|].
           intros _. apply cancel_is_Some.
        -- eapply cause_ok_ext;
             [| | |apply (cause_ok_cancel st None); [done|by left]]; done.
      * (* Stop *)
        apply (inv_intro _ _ st); try done.
        unfold main_ok. simpl. rewrite Hmain, Hrev. eauto.
      * (* cancel(nil) *)
        apply (inv_intro _ _ st); try done.
        -- unfold main_ok. simpl. rewrite Hmain, Hrev. right; right.
           split_and!; try done. apply cancel_is_Some.
        -- eapply listener_ok_wake; [exact Hli|done..|].
           intros _. apply cancel_is_Some.
        -- eapply cause_ok_ext;
             [| | |apply (cause_ok_cancel st None); [done|by left]]; done.
  - (* listener: receive *)
    destruct (listener st) eqn:Hlis; try discriminate.
    destruct (buf (ch st)) as [|s rest] eqn:Hbuf; try discriminate.
    injection Hst as <-.
    constructor; simpl; try done.
    + simpl in Hl. lia.
    + intros s' Hin. apply Hb. apply elem_of_cons. by right.
    + unfold main_ok in *. simpl. rewrite Hlis in Hm.
      destruct (main st); destruct_and?; done.
    + unfold listener_ok. simpl. apply Hb. apply elem_of_cons. by left.
  - (* listener: done *)
    destruct (listener st) eqn:Hlis; try discriminate.
    destruct (bool_decide (is_Some (err (ctx st)))) eqn:Hd; try discriminate.
    injection Hst as <-.
    apply (inv_intro _ _ st); try done.
    unfold main_ok in *. simpl. rewrite Hlis in Hm.
    destruct (main st); destruct_and?; done.
  - (* listener: park *)
    destruct (listener st) eqn:Hlis; try discriminate.
    destruct (buf (ch st)) as [|s rest] eqn:Hbuf; try discriminate.
    destruct (bool_decide (is_Some (err (ctx st)))) eqn:Hd; try discriminate.
    injection Hst as <-.
    apply (inv_intro _ _ st); try done.
    + unfold main_ok in *. simpl. rewrite Hlis in Hm.
      destruct (main st); destruct_and?; done.
    + unfold listener_ok. simpl. split; [|done].
      by apply Done_cancelCtx_false.
  - (* listener: cancel *)
    destruct (listener st) eqn:Hlis; try discriminate.
    injection Hst as <-.
    unfold listener_ok in Hli. rewrite Hlis in Hli.
    apply (inv_intro _ _ st); try done.
    + unfold main_ok in *. simpl. rewrite Hlis in Hm.
      destruct (main st); destruct_and?; try done.
      * destruct (rev st); destruct_or?; destruct_and?; eauto 10.
        -- right. split_and!; try done. apply cancel_is_Some.
        -- right; right. split_and!; try done. apply cancel_is_Some.
      * split_and!; try done. apply cancel_is_Some.
    + eapply cause_ok_ext;
        [| | |apply (cause_ok_cancel st (listener_cause (rev st) s));
              [done|]]; try done.
      unfold listener_cause. destruct (rev st) eqn:Hrev; eauto 10.
  - injection Hst as <-. by apply Notify_raise_inv.
  - (* the parent becomes done *)
    destruct (Done (parent st)) eqn:Hd; try discriminate.
    destruct (Done p && bool_decide (is_Some (Err p))) eqn:Hp;
      try discriminate.
    injection Hst as <-.
    apply (inv_intro _ _ st); try done.
    + unfold main_ok in *. simpl.
      destruct (main st); destruct_and?; try done.
      all: match goal with H : listener _ = _ |- _ => by rewrite H end.
    + eapply listener_ok_wake; [exact Hli|done..].
    + unfold cause_ok in *. simpl.
      destruct Hca as [H|[H|[H|(s & ? & ? & ? & ?)]]]; eauto 10.
      destruct H as (H & _). congruence.
  - (* the done parent cancels the child *)
    destruct (main st) eqn:Hmain; try discriminate; injection Hst as <-.
    all: apply set_ctx_inv;
      [done | by rewrite Hmain | apply keep_propagate
      | by apply cause_ok_propagate].
Qed.

Lemma Notify_exec_inv r sigs st tr st' :
  inv r sigs st → exec st tr = Some st' → inv r sigs st'.
Proof.
  revert st. induction tr as [|e tr IH]; simpl; intros st Hinv Hex.
  - by simplify_eq.
  - destruct (step st e) as [st1|] eqn:Hst; [|done].
    eapply IH; [|done]. by eapply Notify_step_inv.
Qed.

Lemma Notify_reachable_inv r p0 sigs tr st :
  exec (init r p0 sigs) tr = Some st → inv r sigs st.
Proof. apply Notify_exec_inv, Notify_init_inv. Qed.







(** Case analysis along the tests of a step that happened. *)
Ltac case_step H :=
  repeat (match type of H with
          | context [match ?x with _ => _ end] => destruct x eqn:?
          | context [if ?x then _ else _] => destruct x eqn:?
          end);
  simplify_eq.

Lemma keep_propagate_cause p c :
  is_Some (err c) → cause (propagate_now p c) = cause c.
Proof.
  intros H. unfold propagate_now. destruct (Done p), (Err p); try done.
  by rewrite cancel_canceled.
Qed.

(** In a reachable state the child that is canceled has left [Entry]. *)
Lemma canceled_not_Entry r sigs st :
  inv r sigs st → is_Some (err (ctx st)) → main st ≠ Entry.
Proof.
  intros [_ _ _ _ _ _ Hm _ _] [x Hx] Hmain.
  unfold main_ok in Hm. rewrite Hmain in Hm.
  destruct Hm as (_ & _ & _ & He & _). congruence.
Qed.

(** The two fields of a canceled child are written once: no step of anyone
    changes them afterwards. *)
Lemma cause_written_once_step r sigs st e st' :
  inv r sigs st → is_Some (err (ctx st)) → step st e = Some st' →
  err (ctx st') = err (ctx st) ∧ cause (ctx st') = cause (ctx st).
Proof.
  intros Hinv Hc Hst.
  pose proof (canceled_not_Entry _ _ _ Hinv Hc) as Hne.
  destruct e; simpl in Hst.
  - unfold main_step in Hst.
    destruct (main st) eqn:Hm; try discriminate; [done|..];
      injection Hst as <-; simpl.
    + destruct (rev st); simpl; done.
    + destruct Hc as [x Hx]. rewrite Hx. destruct (rev st); simpl; done.
  - destruct (main st); try done. by injection Hst as <-.
  - destruct (main st); try done.
    destruct (defers st) as [|d ds]; injection Hst as <-; [done|].
    destruct d; simpl; unfold CancelCauseFunc;
      rewrite ?cancel_canceled by done; done.
  - by case_step Hst.
  - by case_step Hst.
  - by case_step Hst.
  - destruct (listener st); try done. injection Hst as <-. simpl.
    unfold CancelCauseFunc. by rewrite cancel_canceled.
  - injection Hst as <-. unfold raise, send_nb.
    destruct (want _ _); [|done]. destruct (is_parked st); [done|].
    by case_decide.
  - by case_step Hst.
  - destruct (main st); try done; injection Hst as <-; simpl;
      by rewrite keep_propagate, keep_propagate_cause.
Qed.

Lemma cause_written_once tr : ∀ r sigs st st',
  inv r sigs st → is_Some (err (ctx st)) → exec st tr = Some st' →
  err (ctx st') = err (ctx st) ∧ cause (ctx st') = cause (ctx st).
Proof.
  induction tr as [|e tr IH]; simpl; intros r sigs st st' Hinv Hc Hex.
  - by injection Hex as <-.
  - destruct (step st e) as [st1|] eqn:Hst; [|done].
    destruct (cause_written_once_step _ _ _ _ _ Hinv Hc Hst) as [E1 E2].
    rewrite <- E1, <- E2. eapply IH; [by eapply Notify_step_inv| |done].
    by rewrite E1.
Qed.

(** A parent that is done when the call begins: the child takes the parent's
    error and cause when it is derived, and no listener is ever started. *)
Lemma parent_first_step p0 st e st' :
  Done p0 = true → is_Some (Err p0) →
  parent_first p0 st → step st e = Some st' → parent_first p0 st'.
Proof.
  intros Hd [e0 He0] (Hp & Hl & Hc) Hst. unfold parent_first, parent in *.
  destruct e; simpl in Hst.
  - unfold main_step in Hst.
    destruct (main st) eqn:Hm; try discriminate; injection Hst as <-.
    + assert (E : WithCancelCause (cancelCtx_Context (ctx st)) =
                  {| cancelCtx_Context := p0; err := Some e0;
                     cause := Cause p0 |}).
      { unfold WithCancelCause, propagate_now. rewrite Hp, Hd, He0.
        rewrite cancel_fresh by done. simpl.
        by rewrite (Cause_of_done p0 e0). }
      unfold parent. rewrite E. destruct (rev st); simpl; rewrite Hl; done.
    + destruct Hc as [E1 E2]; [done|].
      destruct (rev st); simpl; rewrite Hl; done.
    + destruct Hc as [E1 E2]; [done|]. simpl. rewrite E1, He0.
      destruct (rev st); simpl; rewrite Hl, ?He0;
        (split_and!; try done; intros _; split; congruence).
  - case_step Hst. simpl. split_and!; try done. intros _. by apply Hc.
  - destruct (main st) eqn:Hm; try discriminate.
    destruct Hc as [E1 E2]; [congruence|].
    assert (Hs : is_Some (err (ctx st))) by (rewrite E1, He0; eauto).
    destruct (defers st) as [|d ds]; injection Hst as <-; [done|].
    destruct d; simpl; unfold CancelCauseFunc;
      rewrite ?cancel_canceled by done; rewrite Hl; done.
  - by rewrite Hl in Hst.
  - by rewrite Hl in Hst.
  - by rewrite Hl in Hst.
  - by rewrite Hl in Hst.
  - injection Hst as <-. unfold raise, send_nb, is_parked. rewrite Hl.
    destruct (want _ _); [|done]. by case_decide.
  - unfold parent in Hst. by rewrite Hp, Hd in Hst.
  - destruct (main st) eqn:Hm; try discriminate; injection Hst as <-.
    all: destruct Hc as [E1 E2]; [done|].
    all: assert (Hs : is_Some (err (ctx st))) by (rewrite E1, He0; eauto).
    all: simpl; rewrite propagate_parent, Hl, keep_propagate,
           keep_propagate_cause by done; done.
Qed.

Lemma parent_first_exec p0 tr : ∀ st st',
  Done p0 = true → is_Some (Err p0) →
  parent_first p0 st → exec st tr = Some st' → parent_first p0 st'.
Proof.
  induction tr as [|e tr IH]; simpl; intros st st' Hd He Hp Hex.
  - by injection Hex as <-.
  - destruct (step st e) as [st1|] eqn:Hst; [|done].
    eapply IH; [done..| |done]. by eapply parent_first_step.
Qed.

Lemma Cause_run_ctx r sigs st :
  inv r sigs st → Cause (run_ctx st) = cause (ctx st).
Proof.
  intros [_ _ _ _ _ _ _ _ Hca].
  change (Cause (run_ctx st))
    with (match cause (ctx st) with Some cs => Some cs | None => err (ctx st) end).
  destruct (cause (ctx st)) eqn:Hc; [done|].
  destruct Hca as [[? ?]|[[? ?]|[(?&?&?&E)|(s&?&?&?&?)]]]; try congruence.
  rewrite E in Hc. unfold parent in *.
  destruct H0 as [x Hx]. rewrite <- (Cause_of_done _ _ Hx) in Hc. done.
Qed.

(** What [run] is given is the wrapper around the derived child: its four
    interface methods, and with them [context.Cause], answer as the child
    does; and [context.Cause] finds the child's own [cause] field through the
    promoted [Value]. *)
Theorem run_ctx_observes_the_child (st : state) :
  let c := run_ctx st in
  let child := cancelCtx_iface (ctx st) in
  c = signalCtx_iface {| signalCtx_Context := child;
                         Signals.signals := signals st |}
  ∧ Done c = Done child
  ∧ Err c = Err child
  ∧ Deadline c = Deadline child
  ∧ (∀ k, Value c k = Value child k)
  ∧ Cause c = Cause child
  ∧ Deadline c = Deadline (parent st)
  ∧ (∀ k, Value c (userKey k) = Value (parent st) (userKey k))
  ∧ Cause c = match cause (ctx st) with
              | Some cs => Some cs
              | None => err (ctx st)
              end.
Proof. cbv zeta. split_and!; try reflexivity. Qed.


Lemma parent_first_init r p0 sigs : parent_first p0 (init r p0 sigs).
Proof. unfold parent_first. simpl. split_and!; done. Qed.

(** The listener is started by the test [ctx.Err() == nil] and by nothing
    else: before that statement there is none, and the statement starts one
    exactly when the child is not canceled. Once the child is canceled no
    step of the call, of the listener or of the environment changes its
    error or its cause, so a listener that loses the race cancels nothing.
    And a parent that is done when the call begins leaves the child with the
    parent's error and cause for good, with no listener at all. *)
Theorem listener_starts_only_on_a_live_child
    (r : revision) (p0 : Context) (sigs : list Signal)
    (tr : list event) (st : state) :
  exec (init r p0 sigs) tr = Some st →
  (main st = Entry ∨ main st = Created ∨ main st = Subscribed →
     listener st = NotStarted)
  ∧ (main st = Subscribed →
       ∃ st', step st EvMain = Some st' ∧ main st' = Running
              ∧ (listener st' = LSelect ↔ err (ctx st) = None)
              ∧ (listener st' = NotStarted ↔ is_Some (err (ctx st))))
  ∧ (is_Some (err (ctx st)) →
       ∀ tr' st', exec st tr' = Some st' →
         err (ctx st') = err (ctx st) ∧ cause (ctx st') = cause (ctx st))
  ∧ (Done p0 = true → is_Some (Err p0) →
       listener st = NotStarted ∧ parent st = p0
       ∧ (main st ≠ Entry →
          err (ctx st) = Err p0 ∧ cause (ctx st) = Cause p0)).
Proof.
  intros Hex. pose proof (Notify_reachable_inv _ _ _ _ _ Hex) as Hinv.
  pose proof Hinv as [Hr Hs Hc Hl Hb Hv Hm Hli Hca].
  split_and!.
  - unfold main_ok in Hm.
    intros [E|[E|E]]; rewrite E in Hm; by destruct_and?.
  - intros E. unfold main_ok in Hm. rewrite E in Hm.
    destruct Hm as (Hh & Hlis & Hdf).
    simpl. unfold main_step. rewrite E. eexists. split; [done|].
    destruct (rev st) eqn:Hrev; destruct (err (ctx st)) as [x|] eqn:Hx;
      simpl; rewrite ?Hx, ?Hrev; simpl; rewrite ?Hlis;
      (split_and!; [done| |]; split; intros; simplify_eq; eauto);
      try (by match goal with H : is_Some None |- _ => destruct H end).
    all: simpl in *; rewrite ?Hrev in *; simpl in *; done.
  - intros Hcanceled tr' st' Hex'. by eapply cause_written_once.
  - intros Hd He.
    destruct (parent_first_exec p0 tr _ _ Hd He (parent_first_init r p0 sigs)
                Hex) as (? & ? & ?).
    done.
Qed.

Lemma listener_starts_only_on_a_live_child_witness :
  ∃ st, exec (init with_cause
                (cancelCtx_iface
                   (cancelCtx_cancel context_DeadlineExceeded None
                      (WithCancelCause Background)))
                [SIGINT])
          [EvMain; EvMain; EvRaise SIGINT; EvMain] = Some st
        ∧ listener st = NotStarted
        ∧ cause (ctx st) = Some context_DeadlineExceeded.
Proof.
  eexists. split; [vm_compute; reflexivity|].
  destruct (listener_starts_only_on_a_live_child with_cause
              (cancelCtx_iface
                 (cancelCtx_cancel context_DeadlineExceeded None
                    (WithCancelCause Background)))
              [SIGINT] [EvMain; EvMain; EvRaise SIGINT; EvMain] _
              ltac:(vm_compute; reflexivity)) as (_ & _ & _ & H).
  destruct (H eq_refl ltac:(vm_compute; eauto)) as (Hl & _ & Hc).
  split; [exact Hl|]. exact (proj2 (Hc ltac:(discriminate))).
Defined.

(** [FromContext] on the context [run] is given, when the parent's own cause
    carries no [Canceled]: it answers [(sig, true)] exactly when the child's
    cause is the [Canceled{sig}] the listener set, which it sets only for a
    monitored signal that was delivered to the queue; in every other case
    (never canceled, the deferred [cancel(nil)], a parent that is canceled or
    past its deadline) it answers [(nil, false)]. *)
Theorem FromContext_tells_the_listeners_signal
    (p0 : Context) (sigs : list Signal) (tr : list event) (st : state) :
  exec (init with_cause p0 sigs) tr = Some st →
  no_signal_cause (parent st) →
  (∀ s, FromContext (run_ctx st) = Ok (Some s, true)
        ↔ cause (ctx st) = Some (errCanceled {| signal := Some s |}))
  ∧ (∀ s, cause (ctx st) = Some (errCanceled {| signal := Some s |}) →
          delivered s ∈ history st ∧ s ∈ monitored sigs)
  ∧ ((∀ s, cause (ctx st) ≠ Some (errCanceled {| signal := Some s |})) →
       FromContext (run_ctx st) = Ok (None, false)).
Proof.
  intros Hex Hclean. pose proof (Notify_reachable_inv _ _ _ _ _ Hex) as Hinv.
  pose proof Hinv as [Hr Hs Hc Hl Hb Hv Hm Hli Hca].
  rewrite FromContext_cause, (Cause_run_ctx _ _ _ Hinv).
  destruct Hca as [[He Hcs]|[[He Hcs]|[(Hd & Hse & He & Hcs)|(s0 & ? & He & Hcs & Hin)]]].
  - rewrite Hcs. split_and!; try done; intros s; split; intros; simplify_eq.
  - rewrite Hcs. split_and!; try done; intros s; split; intros; simplify_eq.
  - rewrite Hcs. destruct (Cause (parent st)) as [e|] eqn:Hcp.
    + pose proof (Hclean e Hcp) as Hno. rewrite Hno.
      split_and!; try done.
      * intros s. split; intros E; by simplify_eq.
      * intros s E. by simplify_eq.
    + split_and!; try done; intros s; split; intros; simplify_eq.
  - rewrite Hcs. simpl. split_and!.
    + intros s. split; intros; simplify_eq; done.
    + intros s E. simplify_eq. split; [done|]. by apply Hv.
    + intros Hno. by destruct (Hno s0).
Qed.

Lemma FromContext_tells_the_listeners_signal_witness :
  ∃ st, exec (init with_cause Background [SIGINT; SIGTERM])
          [EvMain; EvMain; EvMain; EvListenerPark; EvRaise SIGINT;
           EvListenerCancel] = Some st
        ∧ FromContext (run_ctx st) = Ok (Some SIGINT, true).
Proof.
  eexists. split; [vm_compute; reflexivity|].
  destruct (FromContext_tells_the_listeners_signal Background
              [SIGINT; SIGTERM]
              [EvMain; EvMain; EvMain; EvListenerPark; EvRaise SIGINT;
               EvListenerCancel] _
              ltac:(vm_compute; reflexivity)
              ltac:(intros e H; vm_compute in H; discriminate H))
    as (H & _ & _).
  exact (proj2 (H SIGINT) eq_refl).
Defined.

(** Under every schedule the context [run] holds keeps the contract of
    [context.Context]: [Done] is closed exactly when [Err] is non-nil, and
    exactly then [context.Cause] is non-nil; [Err] is [context.Canceled] or
    the error of the done parent; and a cause [Canceled{sig}] set by this
    call comes with [Err() == context.Canceled], so both
    [errors.Is(ctx.Err(), context.Canceled)] and
    [errors.Is(context.Cause(ctx), context.Canceled)] hold. *)
Theorem run_ctx_keeps_the_Context_contract
    (r : revision) (p0 : Context) (sigs : list Signal)
    (tr : list event) (st : state) :
  exec (init r p0 sigs) tr = Some st →
  let c := run_ctx st in
  (Done c = true ↔ is_Some (Err c))
  ∧ (is_Some (Err c) ↔ is_Some (Cause c))
  ∧ (Err c = None ∨ Err c = Some context_Canceled
     ∨ (Done (parent st) = true ∧ Err c = Err (parent st)))
  ∧ (no_signal_cause (parent st) →
     ∀ s, Cause c = Some (errCanceled {| signal := Some s |}) →
          Err c = Some context_Canceled
          ∧ errors_Is (Err c) (Some context_Canceled) = true
          ∧ errors_Is (Cause c) (Some context_Canceled) = true).
Proof.
  intros Hex c. pose proof (Notify_reachable_inv _ _ _ _ _ Hex) as Hinv.
  pose proof Hinv as [Hr Hs Hc Hl Hb Hv Hm Hli Hca].
  subst c. rewrite (Cause_run_ctx _ _ _ Hinv).
  change (Err (run_ctx st)) with (err (ctx st)).
  change (Done (run_ctx st)) with (bool_decide (is_Some (err (ctx st)))).
  rewrite bool_decide_eq_true.
  destruct Hca as [[He Hcs]|[[He Hcs]|[(Hd & Hse & He & Hcs)|(s0 & ? & He & Hcs & Hin)]]].
  - rewrite He, Hcs. split_and!; try done; eauto.
  - rewrite He, Hcs. split_and!; try done; eauto.
  - destruct Hse as [x Hx]. rewrite He, Hcs, Hx.
    rewrite <- (Cause_of_done _ _ Hx).
    split_and!; try done; eauto.
    intros Hclean s E. exfalso.
    rewrite (Cause_of_done _ _ Hx) in E.
    specialize (Hclean _ E). done.
  - rewrite He, Hcs. split_and!; try done; eauto.
Qed.

Lemma run_ctx_keeps_the_Context_contract_witness :
  ∃ st, exec (init with_cause Background [SIGINT])
          [EvMain; EvMain; EvMain; EvRaise SIGINT; EvListenerRecv;
           EvListenerCancel] = Some st
        ∧ (Done (run_ctx st) = true ↔ is_Some (Err (run_ctx st))).
Proof.
  eexists. split; [vm_compute; reflexivity|].
  exact (proj1 (run_ctx_keeps_the_Context_contract with_cause Background
                  [SIGINT]
                  [EvMain; EvMain; EvMain; EvRaise SIGINT; EvListenerRecv;
                   EvListenerCancel] _ ltac:(vm_compute; reflexivity))).
Defined.

End NotifyProps.
